(** * clientsidetrim: injection of client-side-buffer deletions into a trace

    Shallow embedding of [src/tool/clientsidetrim.cpp] (patrace).  The tool
    reads a trace twice: the first traversal only harvests the per-thread
    "last use" table of client-side buffers, the second one copies every
    call to the output file and appends a [glDeleteClientSideBuffer] call
    right after each call that is the last use of a buffer.

    The program is modelled as a function from its command line and the
    behaviour of the files it touches to the sequence of observable
    effects it performs, together with the way the process ends. *)

From Stdlib Require Import ZArith NArith QArith Ascii String.
From stdpp Require Import gmap strings list fin_maps.

Open Scope string_scope.
Open Scope list_scope.
Open Scope Z_scope.

(** ** Data model *)

(** [common::ValueTM].  The tool itself only ever builds integer values
    ([new common::ValueTM(int)]); values of any other kind reach it from the
    trace and are passed along untouched.  Such a value is kept as its size
    in bytes and its content, the bytes read as one number. *)
Inductive ValueTM : Type :=
| Int_Type (i : Z)
| Opaque_Type (size : N) (content : N).

(** [common::CallTM]: the fields the tool reads or writes. *)
Record CallTM : Type := {
  mCallName : string;
  mCallNo : Z;
  mTid : Z;
  mArgs : list ValueTM
}.

(** [common::CallTM deletion(name)]: a call built from its name alone.  The
    fields not given to the constructor are left at zero. *)
Definition CallTM_new (name : string) : CallTM :=
  {| mCallName := name; mCallNo := 0; mTid := 0; mArgs := [] |}.

Definition push_back_arg (c : CallTM) (v : ValueTM) : CallTM :=
  {| mCallName := mCallName c; mCallNo := mCallNo c; mTid := mTid c;
     mArgs := mArgs c ++ [v] |}.

Definition set_mTid (c : CallTM) (tid : Z) : CallTM :=
  {| mCallName := mCallName c; mCallNo := mCallNo c; mTid := tid;
     mArgs := mArgs c |}.

(** A [Json::Value], seen as its list of members; a default-constructed
    value ([Json::Value info;]) has none. *)
Definition JsonValue : Type := list (string * string).

Definition Json_default : JsonValue := [].

(** One entry of the conversion history kept in a trace header. *)
Record ConversionEntry : Type := {
  operation : string;
  source : string;
  info : JsonValue
}.

(** The trace header: the members the tool never looks at, and the
    conversion history. *)
Record Header : Type := {
  members : JsonValue;
  conversions : list ConversionEntry
}.

(** Modelled from the spec: [addConversionEntry] of [tool/utils.hpp], which
    is not among the sources at hand.  It appends one conversion-history
    entry, made of the operation name, the source file name and the info
    value, to the header and leaves everything else as it is. *)
Definition addConversionEntry (header : Header) (type source_name : string)
    (info_value : JsonValue) : Header :=
  {| members := members header;
     conversions := conversions header ++
       [ {| operation := type; source := source_name; info := info_value |} ] |}.

(** [ParseInterface]: the two settings the tool may change before opening.
    [None] stands for "left as the constructor set it"; the class is
    declared in [tool/parse_interface.h]. *)
Record ParseInterface : Type := {
  ctor_arg : bool;
  quickMode : option bool;
  screenshots : option bool
}.

Definition ParseInterface_new (arg : bool) : ParseInterface :=
  {| ctor_arg := arg; quickMode := None; screenshots := None |}.

Definition setQuickMode (p : ParseInterface) (b : bool) : ParseInterface :=
  {| ctor_arg := ctor_arg p; quickMode := Some b; screenshots := screenshots p |}.

Definition setScreenshots (p : ParseInterface) (b : bool) : ParseInterface :=
  {| ctor_arg := ctor_arg p; quickMode := quickMode p; screenshots := Some b |}.

(** What an opened trace offers: its header, the calls [next_call] hands out
    in file order, and the two tables that are complete once every call has
    been pulled.  The tables are kept in the order in which a range-for
    visits them. *)
Record TraceFile : Type := {
  header : Header;
  calls : list CallTM;
  client_side_last_use : list (Z * list (Z * Z));
  client_side_last_use_reason : list (Z * list (Z * string))
}.

(** The files as the process finds them: the outcome of each of the three
    [open] calls.  The source is opened twice and may have changed in
    between, so both results are given. *)
Record World : Type := {
  open_first : ParseInterface -> string -> option TraceFile;
  open_output : string -> bool;
  open_again : ParseInterface -> string -> option TraceFile
}.

(** How the process ends: [return n] from [main], an exception nobody
    catches, or behaviour the language leaves undefined. *)
Inductive outcome : Type :=
| Exit (code : Z)
| Uncaught (what : string)
| Undefined (why : string).

Inductive printf_arg : Type :=
| ArgInt (i : Z)
| ArgStr (s : string).

(** ** A small trace, used to run the program on

    Five calls on thread 0 and three on thread 1; buffer 7 is last used by
    call 3 and buffer 9 by call 11. *)

Definition draw (callno tid : Z) : CallTM :=
  {| mCallName := "glDrawArrays"; mCallNo := callno; mTid := tid;
     mArgs := [Int_Type 4; Int_Type 0; Int_Type 3] |}.

Definition sample_calls : list CallTM :=
  [ draw 1 0; draw 2 0; draw 3 0; draw 4 0; draw 5 0;
    draw 10 1; draw 11 1; draw 12 1 ].

Definition sample_header : Header :=
  {| members := [("glesVersion", "3")]; conversions := [] |}.

Definition sample_trace : TraceFile :=
  {| header := sample_header;
     calls := sample_calls;
     client_side_last_use := [(0, [(7, 3)]); (1, [(9, 11)])];
     client_side_last_use_reason :=
       [(0, [(7, "glDrawArrays")]); (1, [(9, "glDrawArrays")])] |}.

(** The same trace with a table in which call 3 is entered for buffer 7 on
    thread 0 and again for buffer 8 on thread 1. *)
Definition colliding_trace : TraceFile :=
  {| header := sample_header;
     calls := sample_calls;
     client_side_last_use := [(0, [(7, 3)]); (1, [(8, 3)])];
     client_side_last_use_reason :=
       [(0, [(7, "glDrawArrays")]); (1, [(8, "glDrawArrays")])] |}.

(** A trace with one call that carries 150 MiB of data. *)
Definition upload : CallTM :=
  {| mCallName := "glBufferData"; mCallNo := 1; mTid := 0;
     mArgs := [Int_Type 34962; Opaque_Type 157286400 0; Int_Type 35044] |}.

Definition large_trace : TraceFile :=
  {| header := sample_header;
     calls := [upload];
     client_side_last_use := [];
     client_side_last_use_reason := [] |}.

(** The sample trace without a table, and with a table that lacks its
    reason strings. *)
Definition plain_trace : TraceFile :=
  {| header := sample_header;
     calls := sample_calls;
     client_side_last_use := [];
     client_side_last_use_reason := [] |}.

Definition unexplained_trace : TraceFile :=
  {| header := sample_header;
     calls := sample_calls;
     client_side_last_use := [(0, [(7, 3)])];
     client_side_last_use_reason := [] |}.

(** The sample trace as a first traversal in quick mode might see it: the
    same header and tables, and no call at all. *)
Definition tables_only_trace : TraceFile :=
  {| header := sample_header;
     calls := [];
     client_side_last_use := [(0, [(7, 3)]); (1, [(9, 11)])];
     client_side_last_use_reason :=
       [(0, [(7, "glDrawArrays")]); (1, [(9, "glDrawArrays")])] |}.


(** Worlds: one in which [in.pat] holds a given trace and [out.pat] can be
    written, and the three in which one of the [open] calls fails. *)
Definition world_of (t : TraceFile) : World :=
  {| open_first := fun _ path => if String.eqb path "in.pat" then Some t else None;
     open_output := fun path => String.eqb path "out.pat";
     open_again := fun _ path => if String.eqb path "in.pat" then Some t else None |}.

Definition world_without_source : World :=
  {| open_first := fun _ _ => None;
     open_output := fun _ => true;
     open_again := fun _ _ => None |}.

Definition world_without_output : World :=
  {| open_first := fun _ _ => Some sample_trace;
     open_output := fun _ => false;
     open_again := fun _ _ => Some sample_trace |}.

Definition world_source_lost : World :=
  {| open_first := fun _ _ => Some sample_trace;
     open_output := fun _ => true;
     open_again := fun _ _ => None |}.

(** A world in which the source holds one trace when it is first opened and
    another when it is opened again. *)
Definition world_of_two (first again : TraceFile) : World :=
  {| open_first := fun _ path =>
       if String.eqb path "in.pat" then Some first else None;
     open_output := fun path => String.eqb path "out.pat";
     open_again := fun _ path =>
       if String.eqb path "in.pat" then Some again else None |}.

(** A stand-in for the wire format: the image of a call is the call, and it
    takes four bytes, the name, four bytes for an integer and the size of
    any other value. *)
Definition value_size (v : ValueTM) : N :=
  match v with
  | Int_Type _ => 4
  | Opaque_Type size _ => size
  end.

Definition sample_size (c : CallTM) : N :=
  fold_left N.add (map value_size (mArgs c))
            (4 + N.of_nat (String.length (mCallName c)))%N.

Definition sample_Serialize (c : CallTM) : CallTM := c.


(** A stand-in for the JSON writer: the operations of the conversion
    history, separated by a slash. *)
Definition sample_writer (h : Header) : string :=
  String.concat "/" (map operation (conversions h)).

Section Tool.

(** The collaborators that live outside this file: the wire format of a
    call ([CallTM::Serialize], which returns the end of what it wrote),
    the JSON writer and the version string. *)
Variable wire : Type.
Variable Serialize : CallTM -> wire.
Variable wire_size : wire -> N.
Variable FastWriter_write : Header -> string.
Variable PATRACE_VERSION : string.

(** ** Observable effects *)

Inductive event : Type :=
| Stdout (text : string)
| Stderr (text : string)
| Printf (format : string) (args : list printf_arg)
| DbgLog (format : string) (args : list printf_arg)
| SrcOpen (p : ParseInterface) (path : string) (ok : bool)
| SrcNextCall (c : option CallTM)
| SrcClose
| OutOpen (path : string) (ok : bool)
| OutWriteHeader (jsonLength : N) (data : string) (len : N)
| OutWrite (data : wire) (len : N)
| OutClose.

(** ** The effect monad: a log of events and either a value or the end of
    the process. *)

Definition M (A : Type) : Type := (list event * (A + outcome))%type.

Definition ret {A} (a : A) : M A := ([], inl a).

Definition bind {A B} (c : M A) (k : A -> M B) : M B :=
  match c with
  | (t, inl a) => let '(t', r) := k a in (t ++ t', r)
  | (t, inr o) => (t, inr o)
  end.

Definition emit (e : event) : M unit := ([e], inl tt).

Definition halt {A} (o : outcome) : M A := ([], inr o).

Definition Return {A} (code : Z) : M A := halt (Exit code).

Notation "'let*' x ':=' c 'in' k" := (bind c (fun x => k))
  (at level 10, x pattern, c at level 100, k at level 200).
Notation "c '*>' k" := (bind c (fun _ => k))
  (at level 95, right associativity).

(** ** Text *)

Definition nl : string := String (Ascii.ascii_of_nat 10) EmptyString.
Definition tab : string := String (Ascii.ascii_of_nat 9) EmptyString.

Definition help_text : string :=
  "Usage : deduplicator [OPTIONS] trace_file.pat new_file.pat" +:+ nl +:+
  "Options:" +:+ nl +:+
  "  -h            Print help" +:+ nl +:+
  "  -v            Print version" +:+ nl +:+
  "  -d            Print debug info" +:+ nl.

Definition printHelp : M unit := emit (Stdout help_text).

Definition printVersion : M unit := emit (Stdout (PATRACE_VERSION +:+ nl)).

(** ** writeout *)

Definition WRITE_BUF_LEN : N := 150 * 1024 * 1024.

(** [call->Serialize(buffer)] fills the static buffer from its start and
    returns the end of the image; [dest - buffer] bytes go to the file.
    Nothing compares that length with the size of the buffer: an image
    longer than the buffer is written past its end, which the language
    leaves undefined. *)
Definition writeout (call : CallTM) : M unit :=
  let image := Serialize call in
  let len := wire_size image in
  if (len <=? WRITE_BUF_LEN)%N
  then emit (OutWrite image len)
  else halt (Undefined "write past the end of the staging buffer").

(** ** Option parsing (the [for] loop over [argv]) *)

(** [arg[0] == '-']; the first character of an empty [std::string] is the
    terminating zero. *)
Definition starts_with_dash (arg : string) : bool :=
  match arg with
  | EmptyString => false
  | String c _ => Ascii.eqb c "-"%char
  end.

(** The loop runs over [argv[argIndex .. argc-1]], given as [rest]; it ends by
    [break] or by exhausting the arguments and then yields [argIndex] and the
    [debug] flag, or it returns from [main]. *)
Fixpoint option_loop (rest : list string) (argIndex : nat) (debug : bool)
    : M (nat * bool) :=
  match rest with
  | [] => ret (argIndex, debug)
  | arg :: rest' =>
      if negb (starts_with_dash arg) then ret (argIndex, debug)
      else if String.eqb arg "-h" then printHelp *> Return 1
      else if String.eqb arg "-d" then option_loop rest' (S argIndex) true
      else if String.eqb arg "-v" then printVersion *> Return 0
      else
        emit (Stderr ("Error: Unknown option " +:+ arg +:+ nl)) *>
        printHelp *> Return 1
  end.

(** [argv[i]], read only at indices below [argc]. *)
Definition argv_at (argv : list string) (i : nat) : string :=
  default "" (argv !! i).

(** ** First traversal *)

(** [while ((call = inputFile->next_call())) {}] *)
Fixpoint drain (stream : list CallTM) : M unit :=
  match stream with
  | [] => emit (SrcNextCall None)
  | call :: stream' => emit (SrcNextCall (Some call)) *> drain stream'
  end.

(** ** Flattening of the last-use table *)

(** [table.at(key)]: the value stored under the key, or [std::out_of_range]. *)
Fixpoint find_key {V} (key : Z) (table : list (Z * V)) : option V :=
  match table with
  | [] => None
  | (k, v) :: table' => if Z.eqb k key then Some v else find_key key table'
  end.

Definition at_ {V} (table : list (Z * V)) (key : Z) : M V :=
  match find_key key table with
  | Some v => ret v
  | None => halt (Uncaught "std::out_of_range")
  end.

(** The conversion [(int)n] of a container size. *)
Definition to_int (n : Z) : Z := (n + 2 ^ 31) mod 2 ^ 32 - 2 ^ 31.

(** The inner [for (const auto& pair : thread.second)]: [pair.first] is the
    buffer id, [pair.second] the call number. *)
Fixpoint pair_loop (reasons : list (Z * list (Z * string))) (tid : Z)
    (pairs : list (Z * Z)) (callno_to_client_side_last_use : gmap Z Z)
    : M (gmap Z Z) :=
  match pairs with
  | [] => ret callno_to_client_side_last_use
  | (cs, callno) :: pairs' =>
      let callno_to_client_side_last_use :=
        <[callno := cs]> callno_to_client_side_last_use in
      let* of_thread := at_ reasons tid in
      let* reason := at_ of_thread cs in
      emit (DbgLog (tab +:+ "t%d cs%d call%d endpoint=%s" +:+ nl)
                   [ArgInt tid; ArgInt cs; ArgInt callno; ArgStr reason]) *>
      pair_loop reasons tid pairs' callno_to_client_side_last_use
  end.

(** The outer [for (const auto& thread : client_side_last_use)]. *)
Fixpoint thread_loop (reasons : list (Z * list (Z * string)))
    (threads : list (Z * list (Z * Z)))
    (callno_to_client_side_last_use : gmap Z Z) : M (gmap Z Z) :=
  match threads with
  | [] => ret callno_to_client_side_last_use
  | (tid, pairs) :: threads' =>
      emit (Printf ("Thread %d has %d cs:call pairs" +:+ nl)
                   [ArgInt tid; ArgInt (to_int (Z.of_nat (length pairs)))]) *>
      let* callno_to_client_side_last_use :=
        pair_loop reasons tid pairs callno_to_client_side_last_use in
      thread_loop reasons threads' callno_to_client_side_last_use
  end.

(** ** Second traversal *)

(** [map[key]] on a [std::map<int, int>]: the stored value, zero for a key
    that is not there. *)
Definition map_index (m : gmap Z Z) (key : Z) : Z := default 0 (m !! key).

(** [map.count(key) > 0] *)
Definition map_count_pos (m : gmap Z Z) (key : Z) : bool :=
  match m !! key with Some _ => true | None => false end.

(** The three statements that build the injected call. *)
Definition make_deletion (callno_to_client_side_last_use : gmap Z Z)
    (call : CallTM) : CallTM :=
  let deletion := CallTM_new "glDeleteClientSideBuffer" in
  let deletion :=
    push_back_arg deletion
      (Int_Type (map_index callno_to_client_side_last_use (mCallNo call))) in
  set_mTid deletion (mTid call).

(** [while ((call = inputFile->next_call())) { ... }], with the running
    [count].  [count] is an [int] that grows by at most one for each call
    read; it is taken not to leave the range of [int]. *)
Fixpoint rewrite_loop (callno_to_client_side_last_use : gmap Z Z)
    (stream : list CallTM) (count : Z) : M Z :=
  match stream with
  | [] => emit (SrcNextCall None) *> ret count
  | call :: stream' =>
      emit (SrcNextCall (Some call)) *>
      writeout call *>
      if map_count_pos callno_to_client_side_last_use (mCallNo call)
      then
        writeout (make_deletion callno_to_client_side_last_use call) *>
        rewrite_loop callno_to_client_side_last_use stream' (count + 1)
      else rewrite_loop callno_to_client_side_last_use stream' count
  end.

(** ** main *)

Definition string_size (s : string) : N := N.of_nat (String.length s).

(** The source as the first traversal opens it, and as the second does. *)
Definition quick_source : ParseInterface :=
  setScreenshots (setQuickMode (ParseInterface_new true) true) false.

Definition plain_source : ParseInterface := ParseInterface_new true.

(** [main] from the first [open] up to the second [while] loop: the three
    [open] calls, the header, the first traversal and the flattening, for the
    two file names taken from the command line.  It hands the reopened trace
    and the flattened map to the loop. *)
Definition prepare (w : World)
    (source_trace_filename target_trace_filename : string)
    : M (TraceFile * gmap Z Z) :=
  let inputFile := ParseInterface_new true in
  let inputFile := setQuickMode inputFile true in
  let inputFile := setScreenshots inputFile false in
  match open_first w inputFile source_trace_filename with
  | None =>
      emit (SrcOpen inputFile source_trace_filename false) *>
      emit (Stderr ("Failed to open for reading: "
                    +:+ source_trace_filename +:+ nl)) *>
      Return 1
  | Some first =>
  emit (SrcOpen inputFile source_trace_filename true) *>
  if negb (open_output w target_trace_filename) then
    emit (OutOpen target_trace_filename false) *>
    emit (Stderr ("Failed to open for writing: "
                  +:+ target_trace_filename +:+ nl)) *>
    Return 1
  else
  emit (OutOpen target_trace_filename true) *>
  let info := Json_default in
  let header :=
    addConversionEntry (header first) "inject_client_side_delete"
                       source_trace_filename info in
  let json_header := FastWriter_write header in
  let jsonLength := string_size json_header in
  emit (OutWriteHeader jsonLength json_header (string_size json_header)) *>
  drain (calls first) *>
  let client_side_last_use := client_side_last_use first in
  let client_side_last_use_reason := client_side_last_use_reason first in
  emit SrcClose *>
  let inputFile := ParseInterface_new true in
  match open_again w inputFile source_trace_filename with
  | None =>
      emit (SrcOpen inputFile source_trace_filename false) *>
      emit (Stderr ("Failed to open for reading again: "
                    +:+ source_trace_filename +:+ nl)) *>
      Return 1
  | Some again =>
  emit (SrcOpen inputFile source_trace_filename true) *>
  let* callno_to_client_side_last_use :=
    thread_loop client_side_last_use_reason client_side_last_use ∅ in
  ret (again, callno_to_client_side_last_use)
  end
  end.

(** [main] up to the second [while] loop.  The two [argv[argIndex++]] give
    the file names; the second one is read here although the program reads
    it only after the first [open]. *)
Definition startup (w : World) (argv : list string)
    : M (TraceFile * gmap Z Z) :=
  let argc := length argv in
  let* (argIndex, debug) := option_loop (drop 1 argv) 1 false in
  if (argc <? argIndex + 2)%nat then printHelp *> Return 1 else
  let source_trace_filename := argv_at argv argIndex in
  let argIndex := S argIndex in
  let target_trace_filename := argv_at argv argIndex in
  prepare w source_trace_filename target_trace_filename.

(** [main] after the loop. *)
Definition finish (count : Z) : M Z :=
  emit SrcClose *>
  emit OutClose *>
  emit (Printf ("Injected %d deletion calls" +:+ nl) [ArgInt count]) *>
  ret 0.

Definition main_body (w : World) (argv : list string) : M Z :=
  let* (again, callno_to_client_side_last_use) := startup w argv in
  let* count := rewrite_loop callno_to_client_side_last_use (calls again) 0 in
  finish count.

(** A run of the program: what it did, and how it ended. *)
Definition main (w : World) (argv : list string) : list event * outcome :=
  match main_body w argv with
  | (t, inl code) => (t, Exit code)
  | (t, inr o) => (t, o)
  end.

(** ** Reading a run *)

(** What [writeout] sends to the file for a call that fits. *)
Definition staged (call : CallTM) : event :=
  OutWrite (Serialize call) (wire_size (Serialize call)).

Definition fits (call : CallTM) : Prop :=
  (wire_size (Serialize call) <= WRITE_BUF_LEN)%N.

(** The calls the loop hands to [writeout] for one call of the source. *)
Definition written_for (m : gmap Z Z) (call : CallTM) : list CallTM :=
  if map_count_pos m (mCallNo call)
  then [call; make_deletion m call]
  else [call].

(** The calls handed to [writeout] over a whole stream, in order. *)
Definition inject (m : gmap Z Z) (stream : list CallTM) : list CallTM :=
  flat_map (written_for m) stream.

(** What the loop does for one call of the source when nothing overflows. *)
Definition round_log (m : gmap Z Z) (call : CallTM) : list event :=
  SrcNextCall (Some call) :: map staged (written_for m call).

Definition loop_log (m : gmap Z Z) (stream : list CallTM) : list event :=
  flat_map (round_log m) stream ++ [SrcNextCall None].

(** The number of calls of a stream whose call number the map knows. *)
Definition triggers (m : gmap Z Z) (stream : list CallTM) : Z :=
  Z.of_nat (length (filter (fun c => map_count_pos m (mCallNo c) = true) stream)).

(** The data written to the output file after its header, in order. *)
Definition record_write (e : event) : option (wire * N) :=
  match e with OutWrite data len => Some (data, len) | _ => None end.

Definition file_data (log : list event) : list (wire * N) :=
  omap record_write log.

(** The headers written to the output file: the [jsonLength] recorded at
    that moment, the text and the length given to [WriteHeader]. *)
Definition header_write (e : event) : option (N * string * N) :=
  match e with
  | OutWriteHeader jsonLength data len => Some (jsonLength, data, len)
  | _ => None
  end.

Definition header_writes (log : list event) : list (N * string * N) :=
  omap header_write log.

(** The configuration of the source at each [open], in order. *)
Definition source_open (e : event) : option ParseInterface :=
  match e with SrcOpen p _ _ => Some p | _ => None end.

Definition source_opens (log : list event) : list ParseInterface :=
  omap source_open log.

(** Reading an output stream back: a call whose number the map knows is
    followed by the call injected for it, which is skipped. *)
Fixpoint strip (m : gmap Z Z) (out : list CallTM) : list CallTM :=
  match out with
  | [] => []
  | call :: out' =>
      call ::
      match out' with
      | injected :: out'' =>
          if map_count_pos m (mCallNo call) then strip m out'' else strip m out'
      | [] => []
      end
  end.

(** The entries of the last-use table in the order the two loops visit
    them. *)
Definition entries (threads : list (Z * list (Z * Z))) : list (Z * Z) :=
  flat_map snd threads.

(** The assignment [callno_to_client_side_last_use[pair.second] = pair.first]
    and its repetition over a list of entries. *)
Definition insert_entry (m : gmap Z Z) (pair : Z * Z) : gmap Z Z :=
  <[pair.2 := pair.1]> m.

Definition flatten (m : gmap Z Z) (pairs : list (Z * Z)) : gmap Z Z :=
  foldl insert_entry m pairs.

(** Every entry of the last-use table has its reason string. *)
Definition has_reason (reasons : list (Z * list (Z * string))) (tid : Z)
    (pair : Z * Z) : Prop :=
  exists of_thread reason,
    find_key tid reasons = Some of_thread /\
    find_key pair.1 of_thread = Some reason.

Definition reasons_cover (reasons : list (Z * list (Z * string)))
    (threads : list (Z * list (Z * Z))) : Prop :=
  Forall (fun thread => Forall (has_reason reasons thread.1) thread.2) threads.

Definition is_report (e : event) : Prop :=
  match e with Printf _ _ | DbgLog _ _ => True | _ => False end.

(** The header the program writes for a given source. *)
Definition written_header (first : TraceFile) (source_name : string) : Header :=
  addConversionEntry (header first) "inject_client_side_delete" source_name
                     Json_default.

(** What the program does from the first [open] to the end of the first
    traversal, when both files open. *)
Definition first_pass_log (source_name target_name : string)
    (first : TraceFile) : list event :=
  let json_header := FastWriter_write (written_header first source_name) in
  [ SrcOpen quick_source source_name true;
    OutOpen target_name true;
    OutWriteHeader (string_size json_header) json_header
                   (string_size json_header) ] ++
  map (fun c => SrcNextCall (Some c)) (calls first) ++
  [ SrcNextCall None; SrcClose ].

(** A command line: the program name, [-d] any number of times, the two file
    names, and whatever follows them. *)
Definition command_line (prog : string) (flags : list string)
    (source_name target_name : string) (extra : list string) : list string :=
  prog :: flags ++ source_name :: target_name :: extra.

(** What [main] does after the loop. *)
Definition finish_log (count : Z) : list event :=
  [ SrcClose; OutClose;
    Printf ("Injected %d deletion calls" +:+ nl) [ArgInt count] ].

(** The call the loop injects after a call of thread [tid] for buffer [id]. *)
Definition deletion_call (id tid : Z) : CallTM :=
  {| mCallName := "glDeleteClientSideBuffer"; mCallNo := 0; mTid := tid;
     mArgs := [Int_Type id] |}.

Definition is_console (e : event) : Prop :=
  match e with Stdout _ | Stderr _ => True | _ => False end.

(** The bytes [writeout] sends for a call, with their length. *)
Definition image (call : CallTM) : wire * N :=
  (Serialize call, wire_size (Serialize call)).

(** The events of the loop, and those that can follow the second [open]. *)
Definition is_loop_event (e : event) : Prop :=
  match e with SrcNextCall _ | OutWrite _ _ => True | _ => False end.

Definition is_later (e : event) : Prop :=
  match e with
  | SrcOpen _ _ _ | OutOpen _ _ | OutWriteHeader _ _ _ => False
  | _ => True
  end.

(** * Properties *)

(** ** The monad *)

Arguments bind : simpl never.
Arguments emit : simpl never.
Arguments writeout : simpl never.

Lemma bind_emit {B} (e : event) (k : unit -> M B) :
  bind (emit e) k = (e :: (k tt).1, (k tt).2).
Proof. unfold bind, emit. destruct (k tt); reflexivity. Qed.

Lemma bind_value {A B} (c : M A) (k : A -> M B) t a :
  c = (t, inl a) -> bind c k = (t ++ (k a).1, (k a).2).
Proof. intros ->. unfold bind. destruct (k a); reflexivity. Qed.

Lemma bind_stop {A B} (c : M A) (k : A -> M B) t o :
  c = (t, inr o) -> bind c k = (t, inr o).
Proof. intros ->. reflexivity. Qed.

Lemma bind_ret {A B} (a : A) (k : A -> M B) : bind (ret a) k = k a.
Proof. unfold bind, ret. destruct (k a); reflexivity. Qed.

(** ** writeout *)

Lemma writeout_fits call : fits call -> writeout call = ([staged call], inl tt).
Proof.
  unfold fits, writeout, staged, emit. intros H.
  apply N.leb_le in H. rewrite H. reflexivity.
Qed.

Lemma writeout_overflow call :
  ~ fits call ->
  writeout call = ([], inr (Undefined "write past the end of the staging buffer")).
Proof.
  unfold fits, writeout, halt. intros H.
  destruct (N.leb_spec (wire_size (Serialize call)) WRITE_BUF_LEN) as [Hle|Hgt].
  - contradiction.
  - reflexivity.
Qed.

Lemma fits_dec call : {fits call} + {~ fits call}.
Proof.
  unfold fits.
  destruct (wire_size (Serialize call) <=? WRITE_BUF_LEN)%N eqn:E.
  - left. apply N.leb_le, E.
  - right. intros Hle. apply N.leb_le in Hle. congruence.
Qed.

(** ** The first traversal *)

Lemma drain_log stream :
  drain stream =
  (map (fun c => SrcNextCall (Some c)) stream ++ [SrcNextCall None], inl tt).
Proof.
  induction stream as [|c stream IH]; simpl.
  - reflexivity.
  - rewrite bind_emit, IH. reflexivity.
Qed.

(** ** The second traversal *)

Lemma inject_cons m call stream :
  inject m (call :: stream) = written_for m call ++ inject m stream.
Proof. reflexivity. Qed.

Lemma loop_log_cons m call stream :
  loop_log m (call :: stream) = round_log m call ++ loop_log m stream.
Proof. unfold loop_log. simpl. rewrite <- app_assoc. reflexivity. Qed.

Lemma triggers_cons m call stream :
  triggers m (call :: stream) =
  (if map_count_pos m (mCallNo call) then 1 else 0) + triggers m stream.
Proof.
  unfold triggers.
  destruct (map_count_pos m (mCallNo call)) eqn:E.
  - rewrite filter_cons_True by exact E. simpl length. lia.
  - rewrite filter_cons_False by congruence. lia.
Qed.

Lemma triggers_nil m : triggers m [] = 0.
Proof. reflexivity. Qed.

Lemma triggers_bound m stream :
  0 <= triggers m stream <= Z.of_nat (length stream).
Proof.
  induction stream as [|call stream IH]; [rewrite triggers_nil; simpl; lia|].
  rewrite triggers_cons. simpl length.
  destruct (map_count_pos m (mCallNo call)); lia.
Qed.

(** Either every call handed to [writeout] fits, the loop runs over the
    whole stream and returns the count; or the loop stops at the first call
    that does not fit, having done a part of what it would have done. *)
Lemma rewrite_loop_cases m stream count :
  (Forall fits (inject m stream) /\
   rewrite_loop m stream count =
     (loop_log m stream, inl (count + triggers m stream)))
  \/
  (~ Forall fits (inject m stream) /\
   exists log rest why,
     rewrite_loop m stream count = (log, inr (Undefined why)) /\
     loop_log m stream = log ++ rest).
Proof.
  revert count. induction stream as [|call stream IH]; intros count.
  - left. split; [constructor|].
    simpl. rewrite bind_emit. simpl. rewrite triggers_nil, Z.add_0_r. reflexivity.
  - rewrite inject_cons, loop_log_cons, triggers_cons.
    cbn [rewrite_loop]. rewrite bind_emit.
    destruct (fits_dec call) as [Hc|Hc].
    2:{ right. split.
        - intros HF. apply Forall_app in HF as [HF _].
          unfold written_for in HF.
          destruct (map_count_pos m (mCallNo call));
            apply Forall_cons in HF as [? _]; contradiction.
        - rewrite (bind_stop _ _ _ _ (writeout_overflow call Hc)). simpl.
          eexists _, _, _. split; [reflexivity|].
          unfold round_log. simpl. reflexivity. }
    rewrite (bind_value _ _ _ _ (writeout_fits call Hc)).
    unfold round_log, written_for.
    destruct (map_count_pos m (mCallNo call)) eqn:E.
    + destruct (fits_dec (make_deletion m call)) as [Hd|Hd].
      2:{ right. split.
          - intros HF. apply Forall_app in HF as [HF _].
            apply Forall_cons in HF as [_ HF].
            apply Forall_cons in HF as [? _]. contradiction.
          - rewrite (bind_stop _ _ _ _ (writeout_overflow _ Hd)). simpl.
            eexists _, _, _. split; [reflexivity|]. simpl. reflexivity. }
      rewrite (bind_value _ _ _ _ (writeout_fits _ Hd)).
      destruct (IH (count + 1)) as [[HF Heq]|[HF (log & rest & why & Heq & Hlog)]].
      * left. split.
        { apply Forall_app. split; [|exact HF].
          repeat (apply Forall_cons; split; try assumption). constructor. }
        rewrite Heq. simpl. rewrite Z.add_assoc. reflexivity.
      * right. split.
        { intros HF'. apply Forall_app in HF' as [_ HF']. contradiction. }
        rewrite Heq. simpl. eexists _, rest, _. split; [reflexivity|].
        rewrite Hlog. reflexivity.
    + destruct (IH count) as [[HF Heq]|[HF (log & rest & why & Heq & Hlog)]].
      * left. split.
        { apply Forall_app. split; [|exact HF].
          apply Forall_cons; split; [assumption|constructor]. }
        rewrite Heq. simpl. reflexivity.
      * right. split.
        { intros HF'. apply Forall_app in HF' as [_ HF']. contradiction. }
        rewrite Heq. simpl. eexists _, rest, _. split; [reflexivity|].
        rewrite Hlog. reflexivity.
Qed.

Lemma rewrite_loop_fits m stream count :
  Forall fits (inject m stream) ->
  rewrite_loop m stream count =
    (loop_log m stream, inl (count + triggers m stream)).
Proof.
  intros HF.
  destruct (rewrite_loop_cases m stream count) as [[_ H]|[H _]];
    [exact H | contradiction].
Qed.

Lemma rewrite_loop_prefix m stream count :
  exists rest, loop_log m stream = (rewrite_loop m stream count).1 ++ rest.
Proof.
  destruct (rewrite_loop_cases m stream count)
    as [[_ H]|[_ (l & r & why & H & Hl)]]; rewrite H; simpl.
  - exists []. rewrite app_nil_r. reflexivity.
  - exists r. exact Hl.
Qed.

(** ** Flattening *)

Lemma flatten_app m l1 l2 : flatten m (l1 ++ l2) = flatten (flatten m l1) l2.
Proof. unfold flatten. apply foldl_app. Qed.

Lemma flatten_other (m : gmap Z Z) pairs callno :
  Forall (fun pair => pair.2 <> callno) pairs ->
  flatten m pairs !! callno = m !! callno.
Proof.
  revert m. induction pairs as [|[cs no] pairs IH]; intros m HF.
  - reflexivity.
  - apply Forall_cons in HF as [Hne HF]. simpl in *.
    rewrite IH by exact HF. unfold insert_entry. simpl.
    apply lookup_insert_ne. exact Hne.
Qed.

(** Last write wins: the value under a call number is the buffer of the
    last entry that carries this number. *)
Lemma flatten_last (m : gmap Z Z) earlier cs callno later :
  Forall (fun pair => pair.2 <> callno) later ->
  flatten m (earlier ++ (cs, callno) :: later) !! callno = Some cs.
Proof.
  intros HF. rewrite flatten_app. simpl.
  rewrite flatten_other by exact HF.
  unfold insert_entry. simpl. apply lookup_insert_eq.
Qed.

Lemma flatten_is_Some (m : gmap Z Z) pairs callno :
  is_Some (flatten m pairs !! callno) <->
  is_Some (m !! callno) \/ Exists (fun pair => pair.2 = callno) pairs.
Proof.
  revert m. induction pairs as [|[cs no] pairs IH]; intros m.
  - simpl. split; [auto|]. intros [H|H]; [exact H|]. inversion H.
  - simpl. rewrite IH. unfold insert_entry. simpl.
    rewrite Exists_cons. simpl.
    destruct (decide (no = callno)) as [->|Hne].
    + rewrite lookup_insert_eq. split; [auto|]. intros _. left. eauto.
    + rewrite lookup_insert_ne by exact Hne. tauto.
Qed.

Lemma at_found {V} (table : list (Z * V)) key v :
  find_key key table = Some v -> at_ table key = ret v.
Proof. unfold at_. intros ->. reflexivity. Qed.

Lemma at_missing {V} (table : list (Z * V)) key :
  find_key key table = None ->
  at_ table key = halt (Uncaught "std::out_of_range").
Proof. unfold at_. intros ->. reflexivity. Qed.

Lemma pair_loop_cases reasons tid pairs m :
  (Forall (has_reason reasons tid) pairs /\
   exists log, pair_loop reasons tid pairs m = (log, inl (flatten m pairs)) /\
               Forall is_report log)
  \/
  (~ Forall (has_reason reasons tid) pairs /\
   exists log, pair_loop reasons tid pairs m =
                 (log, inr (Uncaught "std::out_of_range")) /\
               Forall is_report log).
Proof.
  revert m. induction pairs as [|[cs no] pairs IH]; intros m.
  - left. split; [constructor|]. exists []. split; [reflexivity|constructor].
  - cbn [pair_loop].
    destruct (find_key tid reasons) as [of_thread|] eqn:E1.
    2:{ right. split.
        - intros HF. apply Forall_cons in HF as [(t & r & H1 & _) _]. congruence.
        - rewrite (at_missing _ _ E1).
          exists []. split; [reflexivity|constructor]. }
    rewrite (at_found _ _ _ E1), bind_ret.
    destruct (find_key cs of_thread) as [reason|] eqn:E2.
    2:{ right. split.
        - intros HF. apply Forall_cons in HF as [(t & r & H1 & H2) _].
          simpl in H2. congruence.
        - rewrite (at_missing _ _ E2).
          exists []. split; [reflexivity|constructor]. }
    rewrite (at_found _ _ _ E2), bind_ret, bind_emit.
    destruct (IH (<[no:=cs]> m)) as [[HF (log & Heq & Hlog)]|[HF (log & Heq & Hlog)]];
      rewrite Heq; simpl.
    + left. split.
      * apply Forall_cons. split; [|exact HF]. exists of_thread, reason. auto.
      * eexists. split; [reflexivity|]. apply Forall_cons. split; [exact I|exact Hlog].
    + right. split.
      * intros HF'. apply Forall_cons in HF' as [_ HF']. contradiction.
      * eexists. split; [reflexivity|]. apply Forall_cons. split; [exact I|exact Hlog].
Qed.

Lemma thread_loop_cases reasons threads m :
  (reasons_cover reasons threads /\
   exists log, thread_loop reasons threads m =
                 (log, inl (flatten m (entries threads))) /\
               Forall is_report log)
  \/
  (~ reasons_cover reasons threads /\
   exists log, thread_loop reasons threads m =
                 (log, inr (Uncaught "std::out_of_range")) /\
               Forall is_report log).
Proof.
  unfold reasons_cover.
  revert m. induction threads as [|[tid pairs] threads IH]; intros m.
  - left. split; [constructor|]. exists []. split; [reflexivity|constructor].
  - cbn [thread_loop]. rewrite bind_emit.
    unfold entries. simpl. fold (entries threads). rewrite flatten_app.
    destruct (pair_loop_cases reasons tid pairs m)
      as [[HP (plog & Hp & Hplog)]|[HP (plog & Hp & Hplog)]].
    2:{ right. split.
        - intros HF. apply Forall_cons in HF as [HF _]. contradiction.
        - rewrite (bind_stop _ _ _ _ Hp). simpl. eexists. split; [reflexivity|].
          apply Forall_cons. split; [exact I|exact Hplog]. }
    rewrite (bind_value _ _ _ _ Hp).
    destruct (IH (flatten m pairs)) as [[HF (log & Heq & Hlog)]|[HF (log & Heq & Hlog)]];
      rewrite Heq; simpl.
    + left. split.
      * apply Forall_cons. split; assumption.
      * eexists. split; [reflexivity|].
        apply Forall_cons. split; [exact I|]. apply Forall_app. split; assumption.
    + right. split.
      * intros HF'. apply Forall_cons in HF' as [_ HF']. contradiction.
      * eexists. split; [reflexivity|].
        apply Forall_cons. split; [exact I|]. apply Forall_app. split; assumption.
Qed.

Lemma thread_loop_value reasons threads m log m' :
  thread_loop reasons threads m = (log, inl m') ->
  m' = flatten m (entries threads) /\ Forall is_report log /\
  reasons_cover reasons threads.
Proof.
  intros Hrun.
  destruct (thread_loop_cases reasons threads m)
    as [[HF (l & H & Hl)]|[_ (l & H & _)]]; rewrite H in Hrun.
  - injection Hrun as <- <-. auto.
  - discriminate.
Qed.

Lemma thread_loop_reports reasons threads m :
  Forall is_report (thread_loop reasons threads m).1.
Proof.
  destruct (thread_loop_cases reasons threads m)
    as [[_ (l & H & Hl)]|[_ (l & H & Hl)]]; rewrite H; exact Hl.
Qed.

(** ** Option parsing *)

Lemma option_loop_flags flags rest argIndex debug :
  Forall (eq "-d") flags ->
  exists debug',
    option_loop (flags ++ rest) argIndex debug =
    option_loop rest (argIndex + length flags) debug'.
Proof.
  revert argIndex debug.
  induction flags as [|flag flags IH]; intros argIndex debug HF.
  - exists debug. simpl. rewrite Nat.add_0_r. reflexivity.
  - apply Forall_cons in HF as [<- HF].
    destruct (IH (S argIndex) true HF) as [debug' Heq].
    exists debug'. simpl. rewrite Heq. f_equal. lia.
Qed.

Lemma option_loop_positional arg rest argIndex debug :
  starts_with_dash arg = false ->
  option_loop (arg :: rest) argIndex debug = ret (argIndex, debug).
Proof. intros H. simpl. rewrite H. reflexivity. Qed.

Lemma option_loop_unknown arg rest argIndex debug :
  starts_with_dash arg = true ->
  arg <> "-h" -> arg <> "-d" -> arg <> "-v" ->
  option_loop (arg :: rest) argIndex debug =
  ([Stderr ("Error: Unknown option " +:+ arg +:+ nl); Stdout help_text],
   inr (Exit 1)).
Proof.
  intros H Hh Hd Hv. simpl. rewrite H. simpl.
  apply String.eqb_neq in Hh, Hd, Hv. rewrite Hh, Hd, Hv. reflexivity.
Qed.

Lemma argv_at_source prog flags source_name target_name extra :
  argv_at (command_line prog flags source_name target_name extra)
          (1 + length flags) = source_name.
Proof.
  unfold argv_at, command_line. simpl.
  rewrite lookup_app_r by lia. rewrite Nat.sub_diag. reflexivity.
Qed.

Lemma argv_at_target prog flags source_name target_name extra :
  argv_at (command_line prog flags source_name target_name extra)
          (S (1 + length flags)) = target_name.
Proof.
  unfold argv_at, command_line. simpl.
  rewrite lookup_app_r by lia.
  replace (S (length flags) - length flags)%nat with 1%nat by lia.
  reflexivity.
Qed.

(** On a command line with both file names, the options are skipped and the
    two names are taken as they stand. *)
Lemma startup_command_line w prog flags source_name target_name extra :
  Forall (eq "-d") flags ->
  starts_with_dash source_name = false ->
  startup w (command_line prog flags source_name target_name extra) =
  prepare w source_name target_name.
Proof.
  intros HF Hs. unfold startup.
  assert (Hlen : (length (command_line prog flags source_name target_name extra)
                  <? 1 + length flags + 2)%nat = false).
  { apply Nat.ltb_ge. unfold command_line. simpl.
    rewrite length_app. simpl. lia. }
  destruct (option_loop_flags flags (source_name :: target_name :: extra) 1 false HF)
    as [debug' Heq].
  replace (drop 1 (command_line prog flags source_name target_name extra))
    with (flags ++ source_name :: target_name :: extra) by reflexivity.
  rewrite Heq, option_loop_positional by exact Hs.
  rewrite bind_ret, Hlen, argv_at_source, argv_at_target. reflexivity.
Qed.

(** ** From the first [open] to the loop *)

Lemma prepare_no_source w source_name target_name :
  open_first w quick_source source_name = None ->
  prepare w source_name target_name =
  ([ SrcOpen quick_source source_name false;
     Stderr ("Failed to open for reading: " +:+ source_name +:+ nl) ],
   inr (Exit 1)).
Proof.
  intros H. unfold prepare. fold quick_source. rewrite H. reflexivity.
Qed.

Lemma prepare_no_target w source_name target_name first :
  open_first w quick_source source_name = Some first ->
  open_output w target_name = false ->
  prepare w source_name target_name =
  ([ SrcOpen quick_source source_name true;
     OutOpen target_name false;
     Stderr ("Failed to open for writing: " +:+ target_name +:+ nl) ],
   inr (Exit 1)).
Proof.
  intros H1 H2. unfold prepare. fold quick_source. rewrite H1, H2. reflexivity.
Qed.

Lemma prepare_no_reopen w source_name target_name first :
  open_first w quick_source source_name = Some first ->
  open_output w target_name = true ->
  open_again w plain_source source_name = None ->
  prepare w source_name target_name =
  (first_pass_log source_name target_name first ++
   [ SrcOpen plain_source source_name false;
     Stderr ("Failed to open for reading again: " +:+ source_name +:+ nl) ],
   inr (Exit 1)).
Proof.
  intros H1 H2 H3. unfold prepare. fold quick_source plain_source.
  rewrite H1, H2, H3. cbn [negb]. rewrite !bind_emit.
  rewrite (bind_value _ _ _ _ (drain_log (calls first))).
  rewrite ?bind_emit. unfold first_pass_log, written_header. simpl.
  rewrite <- !app_assoc. reflexivity.
Qed.

Lemma prepare_reopened w source_name target_name first again :
  open_first w quick_source source_name = Some first ->
  open_output w target_name = true ->
  open_again w plain_source source_name = Some again ->
  let flattening :=
    thread_loop (client_side_last_use_reason first)
                (client_side_last_use first) ∅ in
  prepare w source_name target_name =
  (first_pass_log source_name target_name first ++
   SrcOpen plain_source source_name true :: flattening.1,
   match flattening.2 with
   | inl m => inl (again, m)
   | inr o => inr o
   end).
Proof.
  intros H1 H2 H3 flattening. unfold prepare. fold quick_source plain_source.
  rewrite H1, H2, H3. cbn [negb]. rewrite !bind_emit.
  rewrite (bind_value _ _ _ _ (drain_log (calls first))).
  rewrite ?bind_emit. subst flattening.
  unfold first_pass_log, written_header.
  destruct (thread_loop (client_side_last_use_reason first)
                        (client_side_last_use first) ∅) as [flog [m|o]];
    unfold bind, ret; simpl; rewrite ?app_nil_r, <- ?app_assoc; reflexivity.
Qed.

(** ** main *)

Lemma main_startup_stops w argv slog o :
  startup w argv = (slog, inr o) -> main w argv = (slog, o).
Proof.
  intros H. unfold main, main_body. rewrite (bind_stop _ _ _ _ H). reflexivity.
Qed.

Lemma main_after_startup w argv slog again m :
  startup w argv = (slog, inl (again, m)) ->
  main w argv =
  match rewrite_loop m (calls again) 0 with
  | (llog, inl count) => (slog ++ llog ++ finish_log count, Exit 0)
  | (llog, inr o) => (slog ++ llog, o)
  end.
Proof.
  intros H. unfold main, main_body. rewrite (bind_value _ _ _ _ H).
  destruct (rewrite_loop m (calls again) 0) as [llog [count|o]] eqn:E.
  - rewrite (bind_value _ _ _ _ eq_refl). unfold finish.
    rewrite !bind_emit. reflexivity.
  - rewrite (bind_stop _ _ _ _ eq_refl). reflexivity.
Qed.

(** A run in which nothing overflows goes through the whole stream. *)
Lemma main_completes w argv slog again m :
  startup w argv = (slog, inl (again, m)) ->
  Forall fits (inject m (calls again)) ->
  main w argv =
  (slog ++ loop_log m (calls again) ++ finish_log (triggers m (calls again)),
   Exit 0).
Proof.
  intros H HF. rewrite (main_after_startup _ _ _ _ _ H).
  rewrite (rewrite_loop_fits _ _ _ HF). reflexivity.
Qed.

(** A run that got to the loop and ended with [return 0] went through the
    whole stream, and nothing overflowed. *)
Lemma main_completed w argv slog again m log :
  startup w argv = (slog, inl (again, m)) ->
  main w argv = (log, Exit 0) ->
  Forall fits (inject m (calls again)) /\
  log = slog ++ loop_log m (calls again) ++ finish_log (triggers m (calls again)).
Proof.
  intros H Hrun. rewrite (main_after_startup _ _ _ _ _ H) in Hrun.
  destruct (rewrite_loop_cases m (calls again) 0)
    as [[HF Heq]|[_ (l & r & why & Heq & _)]]; rewrite Heq in Hrun.
  - injection Hrun as <-. auto.
  - discriminate.
Qed.

(** ** The command line *)

Lemma startup_options_stop w argv log o :
  option_loop (drop 1 argv) 1 false = (log, inr o) ->
  startup w argv = (log, inr o).
Proof. intros H. unfold startup. rewrite (bind_stop _ _ _ _ H). reflexivity. Qed.

Lemma main_options_stop w prog flags arg rest log o :
  Forall (eq "-d") flags ->
  (forall argIndex debug, option_loop (arg :: rest) argIndex debug = (log, inr o)) ->
  main w (prog :: flags ++ arg :: rest) = (log, o).
Proof.
  intros HF Harg. apply main_startup_stops, startup_options_stop.
  destruct (option_loop_flags flags (arg :: rest) 1 false HF) as [debug' Heq].
  simpl drop. rewrite drop_0, Heq. apply Harg.
Qed.

Lemma main_too_few w prog flags positional :
  Forall (eq "-d") flags ->
  match positional with
  | [] => True
  | [only] => starts_with_dash only = false
  | _ => False
  end ->
  main w (prog :: flags ++ positional) = ([Stdout help_text], Exit 1).
Proof.
  intros HF Hpos. apply main_startup_stops. unfold startup.
  destruct (option_loop_flags flags positional 1 false HF) as [debug' Heq].
  simpl drop. rewrite drop_0, Heq.
  assert (Hloop : option_loop positional (1 + length flags) debug' =
                  ret (1 + length flags, debug')%nat).
  { destruct positional as [|only [|]]; try contradiction.
    - reflexivity.
    - apply option_loop_positional, Hpos. }
  rewrite Hloop, bind_ret.
  replace (length (prog :: flags ++ positional) <? 1 + length flags + 2)%nat
    with true.
  - reflexivity.
  - symmetry. apply Nat.ltb_lt. simpl. rewrite length_app.
    destruct positional as [|only [|]]; try contradiction; simpl; lia.
Qed.

(** C8: the command line.  With any number of [-d] before it, [-h] prints
    the help and ends with code 1; [-v] prints the version and ends with
    code 0; any other argument that begins with a dash prints an error, then
    the help, and ends with code 1; fewer than two file names print the help
    and end with code 1.  A run that gets through the loop prints the number
    of injected calls, which is the number of calls written beyond those of
    the source, and ends with code 0. *)
Theorem command_line_surface w prog flags :
  Forall (eq "-d") flags ->
  (forall rest,
     main w (prog :: flags ++ "-h" :: rest) = ([Stdout help_text], Exit 1)) /\
  (forall rest,
     main w (prog :: flags ++ "-v" :: rest) =
     ([Stdout (PATRACE_VERSION +:+ nl)], Exit 0)) /\
  (forall arg rest,
     starts_with_dash arg = true ->
     arg <> "-h" -> arg <> "-d" -> arg <> "-v" ->
     main w (prog :: flags ++ arg :: rest) =
     ([Stderr ("Error: Unknown option " +:+ arg +:+ nl); Stdout help_text],
      Exit 1)) /\
  (main w (prog :: flags) = ([Stdout help_text], Exit 1)) /\
  (forall only,
     starts_with_dash only = false ->
     main w (prog :: flags ++ [only]) = ([Stdout help_text], Exit 1)) /\
  (forall source_name target_name extra slog again m,
     startup w (command_line prog flags source_name target_name extra) =
       (slog, inl (again, m)) ->
     Forall fits (inject m (calls again)) ->
     exists count,
       main w (command_line prog flags source_name target_name extra) =
       (slog ++ loop_log m (calls again) ++
        [ SrcClose; OutClose;
          Printf ("Injected %d deletion calls" +:+ nl) [ArgInt count] ],
        Exit 0) /\
       Z.of_nat (length (inject m (calls again))) =
       Z.of_nat (length (calls again)) + count).
Proof.
  intros HF. repeat split.
  - intros rest. apply main_options_stop; [exact HF|]. reflexivity.
  - intros rest. apply main_options_stop; [exact HF|]. reflexivity.
  - intros arg rest Hdash Hh Hd Hv. apply main_options_stop; [exact HF|].
    intros. apply option_loop_unknown; assumption.
  - rewrite <- (app_nil_r flags) at 1. apply main_too_few; [exact HF|exact I].
  - intros only Honly. apply main_too_few; [exact HF|exact Honly].
  - intros source_name target_name extra slog again m Hs Hfit.
    exists (triggers m (calls again)). split.
    + apply main_completes; assumption.
    + clear. induction (calls again) as [|call stream IH].
      * reflexivity.
      * rewrite inject_cons, length_app, triggers_cons. simpl length.
        unfold written_for.
        destruct (map_count_pos m (mCallNo call)); simpl length; lia.
Qed.

(** ** Every way through the start of [main] *)

Lemma option_loop_cases rest argIndex debug :
  (exists argIndex' debug',
     option_loop rest argIndex debug = ret (argIndex', debug')) \/
  (exists log code,
     option_loop rest argIndex debug = (log, inr (Exit code)) /\
     Forall is_console log).
Proof.
  revert argIndex debug.
  induction rest as [|arg rest IH]; intros argIndex debug; simpl.
  - left. eauto.
  - destruct (starts_with_dash arg); simpl; [|left; eauto].
    destruct (String.eqb arg "-h").
    { right. eexists _, _. split; [reflexivity|]. repeat constructor. }
    destruct (String.eqb arg "-d"); [apply IH|].
    destruct (String.eqb arg "-v").
    { right. eexists _, _. split; [reflexivity|]. repeat constructor. }
    right. eexists _, _. split; [reflexivity|]. repeat constructor.
Qed.

Lemma startup_cases w argv :
  (exists log code,
     startup w argv = (log, inr (Exit code)) /\ Forall is_console log) \/
  (exists source_name target_name,
     startup w argv = prepare w source_name target_name).
Proof.
  unfold startup.
  destruct (option_loop_cases (drop 1 argv) 1 false)
    as [(i & d & Heq)|(log & code & Heq & Hlog)].
  - rewrite Heq, bind_ret.
    destruct (length argv <? i + 2)%nat.
    + left. eexists _, _. split; [reflexivity|]. repeat constructor.
    + right. eauto.
  - left. rewrite (bind_stop _ _ _ _ Heq). eauto.
Qed.

Lemma prepare_cases w source_name target_name :
  (open_first w quick_source source_name = None) \/
  (exists first,
     open_first w quick_source source_name = Some first /\
     open_output w target_name = false) \/
  (exists first,
     open_first w quick_source source_name = Some first /\
     open_output w target_name = true /\
     open_again w plain_source source_name = None) \/
  (exists first again,
     open_first w quick_source source_name = Some first /\
     open_output w target_name = true /\
     open_again w plain_source source_name = Some again).
Proof.
  destruct (open_first w quick_source source_name) as [first|]; [|auto].
  destruct (open_output w target_name); [|eauto 6].
  destruct (open_again w plain_source source_name) as [again|]; eauto 10.
Qed.

Lemma main_log_extends w argv :
  exists rest, (main w argv).1 = (startup w argv).1 ++ rest.
Proof.
  destruct (startup w argv) as [slog [[again m]|o]] eqn:E.
  - rewrite (main_after_startup _ _ _ _ _ E).
    destruct (rewrite_loop m (calls again) 0) as [llog [count|o]]; simpl; eauto.
  - rewrite (main_startup_stops _ _ _ _ E). exists []. simpl.
    rewrite app_nil_r. reflexivity.
Qed.

(** C9: option parsing stops at the first argument that does not begin with
    a dash.  That argument is the path the source is opened with and the
    one after it, whatever it looks like, is the path the output is opened
    with: it is not read as an option. *)
Theorem names_follow_options w prog flags source_name target_name extra :
  Forall (eq "-d") flags ->
  starts_with_dash source_name = false ->
  (exists debug,
     option_loop (flags ++ source_name :: target_name :: extra) 1 false =
     ret ((1 + length flags)%nat, debug)) /\
  startup w (command_line prog flags source_name target_name extra) =
    prepare w source_name target_name /\
  exists ok rest,
    (main w (command_line prog flags source_name target_name extra)).1 =
      SrcOpen quick_source source_name ok :: rest /\
    (ok = true -> exists ok' rest', rest = OutOpen target_name ok' :: rest').
Proof.
  intros HF Hs.
  pose proof (startup_command_line w prog flags source_name target_name extra HF Hs)
    as Hstart.
  split; [|split; [exact Hstart|]].
  - destruct (option_loop_flags flags (source_name :: target_name :: extra) 1 false HF)
      as [debug' Heq].
    exists debug'. rewrite Heq. apply option_loop_positional, Hs.
  - destruct (main_log_extends w
                (command_line prog flags source_name target_name extra))
      as [rest Hrest].
    rewrite Hrest, Hstart.
    destruct (prepare_cases w source_name target_name)
      as [H1|[(first & H1 & H2)|[(first & H1 & H2 & H3)|(first & again & H1 & H2 & H3)]]].
    + rewrite (prepare_no_source _ _ _ H1). simpl.
      eexists false, _. split; [reflexivity|discriminate].
    + rewrite (prepare_no_target _ _ _ _ H1 H2). simpl.
      eexists true, _. split; [reflexivity|]. intros _. eauto.
    + rewrite (prepare_no_reopen _ _ _ _ H1 H2 H3). simpl.
      eexists true, _. split; [reflexivity|]. intros _. eauto.
    + rewrite (prepare_reopened _ _ _ _ _ H1 H2 H3). simpl.
      eexists true, _. split; [reflexivity|]. intros _. eauto.
Qed.

(** C7: when an [open] fails.  On a command line with both file names, if
    the source cannot be opened, or the output cannot be opened, or the
    source cannot be opened a second time, the program writes a message with
    the path to standard error and ends with code 1; the message is the last
    thing it does. *)
Theorem open_failures w prog flags source_name target_name extra :
  Forall (eq "-d") flags ->
  starts_with_dash source_name = false ->
  let argv := command_line prog flags source_name target_name extra in
  (open_first w quick_source source_name = None ->
   main w argv =
   ([ SrcOpen quick_source source_name false;
      Stderr ("Failed to open for reading: " +:+ source_name +:+ nl) ],
    Exit 1)) /\
  (forall first,
     open_first w quick_source source_name = Some first ->
     open_output w target_name = false ->
     main w argv =
     ([ SrcOpen quick_source source_name true;
        OutOpen target_name false;
        Stderr ("Failed to open for writing: " +:+ target_name +:+ nl) ],
      Exit 1)) /\
  (forall first,
     open_first w quick_source source_name = Some first ->
     open_output w target_name = true ->
     open_again w plain_source source_name = None ->
     main w argv =
     (first_pass_log source_name target_name first ++
      [ SrcOpen plain_source source_name false;
        Stderr ("Failed to open for reading again: " +:+ source_name +:+ nl) ],
      Exit 1)).
Proof.
  intros HF Hs argv.
  pose proof (startup_command_line w prog flags source_name target_name extra HF Hs)
    as Hstart.
  repeat split.
  - intros H1. apply main_startup_stops. fold argv in Hstart. rewrite Hstart.
    apply prepare_no_source, H1.
  - intros first H1 H2. apply main_startup_stops. fold argv in Hstart.
    rewrite Hstart. apply (prepare_no_target _ _ _ first); assumption.
  - intros first H1 H2 H3. apply main_startup_stops. fold argv in Hstart.
    rewrite Hstart. apply prepare_no_reopen; assumption.
Qed.

(** ** The shape of a run *)

Lemma omap_none {A B} (f : A -> option B) (l : list A) :
  Forall (fun x => f x = None) l -> omap f l = [].
Proof.
  induction 1 as [|x l Hx _ IH]; [reflexivity|].
  simpl. rewrite Hx. exact IH.
Qed.

Lemma loop_log_events m stream : Forall is_loop_event (loop_log m stream).
Proof.
  unfold loop_log. apply Forall_app. split.
  - induction stream as [|call stream IH]; [constructor|].
    simpl. apply Forall_cons. split; [exact I|].
    apply Forall_app. split; [|exact IH].
    unfold written_for. destruct (map_count_pos m (mCallNo call));
      repeat constructor.
  - repeat constructor.
Qed.

Lemma rewrite_loop_events m stream count :
  Forall is_loop_event (rewrite_loop m stream count).1.
Proof.
  destruct (rewrite_loop_prefix m stream count) as [rest Heq].
  pose proof (loop_log_events m stream) as H. rewrite Heq in H.
  apply Forall_app in H as [H _]. exact H.
Qed.

Lemma later_of_report e : is_report e -> is_later e.
Proof. destruct e; simpl; tauto. Qed.

Lemma later_of_loop_event e : is_loop_event e -> is_later e.
Proof. destruct e; simpl; tauto. Qed.

Lemma later_no_open e : is_later e -> source_open e = None.
Proof. destruct e; simpl; tauto. Qed.

Lemma later_no_header e : is_later e -> header_write e = None.
Proof. destruct e; simpl; tauto. Qed.

Lemma console_no_open e : is_console e -> source_open e = None.
Proof. destruct e; simpl; tauto. Qed.

Lemma console_no_header e : is_console e -> header_write e = None.
Proof. destruct e; simpl; tauto. Qed.

Lemma console_no_record e : is_console e -> record_write e = None.
Proof. destruct e; simpl; tauto. Qed.

Lemma report_no_record e : is_report e -> record_write e = None.
Proof. destruct e; simpl; tauto. Qed.

(** What follows the second [open] of a run that got that far. *)
Lemma after_reopen_later w argv slog again m :
  startup w argv = (slog, inl (again, m)) ->
  exists rest, main w argv = (slog ++ rest, (main w argv).2) /\
               Forall is_later rest.
Proof.
  intros H. rewrite (main_after_startup _ _ _ _ _ H).
  pose proof (rewrite_loop_events m (calls again) 0) as Hev.
  destruct (rewrite_loop m (calls again) 0) as [llog [count|o]]; simpl in *.
  - eexists. split; [reflexivity|]. apply Forall_app. split.
    + eapply Forall_impl; [exact Hev|]. apply later_of_loop_event.
    + repeat constructor.
  - eexists. split; [reflexivity|].
    eapply Forall_impl; [exact Hev|]. apply later_of_loop_event.
Qed.

(** The four ways a run can go: it ends while parsing the command line; the
    source does not open; the output does not open; or both open, the header
    is written, the source is read through and opened again. *)
Lemma main_log_shape w argv :
  Forall is_console (main w argv).1
  \/
  (exists source_name,
     open_first w quick_source source_name = None /\
     (main w argv).1 =
     [ SrcOpen quick_source source_name false;
       Stderr ("Failed to open for reading: " +:+ source_name +:+ nl) ])
  \/
  (exists source_name target_name first,
     open_first w quick_source source_name = Some first /\
     open_output w target_name = false /\
     (main w argv).1 =
     [ SrcOpen quick_source source_name true;
       OutOpen target_name false;
       Stderr ("Failed to open for writing: " +:+ target_name +:+ nl) ])
  \/
  (exists source_name target_name first rest,
     open_first w quick_source source_name = Some first /\
     open_output w target_name = true /\
     (main w argv).1 =
     first_pass_log source_name target_name first ++
     SrcOpen plain_source source_name
             (bool_decide (is_Some (open_again w plain_source source_name)))
     :: rest /\
     Forall is_later rest).
Proof.
  destruct (startup_cases w argv)
    as [(log & code & Heq & Hlog)|(source_name & target_name & Heq)].
  { left. rewrite (main_startup_stops _ _ _ _ Heq). exact Hlog. }
  right.
  destruct (prepare_cases w source_name target_name)
    as [H1|[(first & H1 & H2)|[(first & H1 & H2 & H3)|(first & again & H1 & H2 & H3)]]].
  - left. exists source_name. split; [exact H1|].
    rewrite (prepare_no_source _ _ _ H1) in Heq.
    rewrite (main_startup_stops _ _ _ _ Heq). reflexivity.
  - right; left. exists source_name, target_name, first.
    split; [exact H1|]. split; [exact H2|].
    rewrite (prepare_no_target _ _ _ _ H1 H2) in Heq.
    rewrite (main_startup_stops _ _ _ _ Heq). reflexivity.
  - right; right. exists source_name, target_name, first.
    rewrite (prepare_no_reopen _ _ _ _ H1 H2 H3) in Heq.
    rewrite (main_startup_stops _ _ _ _ Heq), H3. simpl.
    eexists. split; [exact H1|]. split; [exact H2|].
    split; [reflexivity|]. repeat constructor.
  - right; right. exists source_name, target_name, first.
    rewrite (prepare_reopened _ _ _ _ _ H1 H2 H3) in Heq.
    rewrite H3. simpl bool_decide.
    pose proof (thread_loop_reports (client_side_last_use_reason first)
                  (client_side_last_use first) ∅) as Hrep.
    destruct (thread_loop (client_side_last_use_reason first)
                (client_side_last_use first) ∅) as [flog [m|o]]; simpl in *.
    + destruct (after_reopen_later _ _ _ _ _ Heq) as (rest & Hmain & Hrest).
      rewrite Hmain. simpl. rewrite <- app_assoc. simpl.
      eexists. split; [exact H1|]. split; [exact H2|].
      split; [reflexivity|]. apply Forall_app. split; [|exact Hrest].
      eapply Forall_impl; [exact Hrep|]. apply later_of_report.
    + rewrite (main_startup_stops _ _ _ _ Heq). simpl.
      eexists. split; [exact H1|]. split; [exact H2|].
      split; [reflexivity|].
      eapply Forall_impl; [exact Hrep|]. apply later_of_report.
Qed.

(** ** How the source is opened, and the header *)

Lemma omap_reads {B} (f : event -> option B) (stream : list CallTM) :
  (forall c, f (SrcNextCall c) = None) ->
  omap f (map (fun c => SrcNextCall (Some c)) stream) = [].
Proof.
  intros Hf. apply omap_none. apply Forall_map.
  apply Forall_forall. intros c _. apply Hf.
Qed.

Lemma source_opens_first_pass source_name target_name first :
  source_opens (first_pass_log source_name target_name first) = [quick_source].
Proof.
  unfold source_opens, first_pass_log. simpl.
  rewrite omap_app, omap_reads by reflexivity. reflexivity.
Qed.

Lemma source_opens_app l1 l2 :
  source_opens (l1 ++ l2) = source_opens l1 ++ source_opens l2.
Proof. apply omap_app. Qed.

Lemma source_opens_open p path ok rest :
  source_opens (SrcOpen p path ok :: rest) = p :: source_opens rest.
Proof. reflexivity. Qed.

Lemma source_opens_later rest : Forall is_later rest -> source_opens rest = [].
Proof.
  intros H. apply omap_none. eapply Forall_impl; [exact H|]. apply later_no_open.
Qed.

Lemma header_writes_later rest : Forall is_later rest -> header_writes rest = [].
Proof.
  intros H. apply omap_none. eapply Forall_impl; [exact H|]. apply later_no_header.
Qed.

(** In any run the source is opened at most twice: first with quick mode on
    and screenshots off, then as the constructor leaves it. *)
Lemma source_opens_any w argv :
  source_opens (main w argv).1 `prefix_of` [quick_source; plain_source].
Proof.
  destruct (main_log_shape w argv)
    as [H|[(sn & _ & H)|[(sn & tn & first & _ & _ & H)
                         |(sn & tn & first & rest & _ & _ & H & Hrest)]]].
  - unfold source_opens. rewrite omap_none.
    + apply prefix_nil.
    + eapply Forall_impl; [exact H|]. apply console_no_open.
  - rewrite H. exists [plain_source]. reflexivity.
  - rewrite H. exists [plain_source]. reflexivity.
  - rewrite H, source_opens_app, source_opens_first_pass, source_opens_open.
    rewrite source_opens_later by exact Hrest.
    exists []. reflexivity.
Qed.

(** C10: the two ways the source is opened.  When the source and the output
    open, the source is opened exactly twice: the first time with quick mode
    switched on and screenshots switched off, the second time as a fresh
    object on which neither setting was touched. *)
Theorem source_modes w prog flags source_name target_name extra first :
  Forall (eq "-d") flags ->
  starts_with_dash source_name = false ->
  open_first w quick_source source_name = Some first ->
  open_output w target_name = true ->
  source_opens
    (main w (command_line prog flags source_name target_name extra)).1 =
    [ {| ctor_arg := true; quickMode := Some true; screenshots := Some false |};
      {| ctor_arg := true; quickMode := None; screenshots := None |} ].
Proof.
  intros HF Hs H1 H2.
  pose proof (startup_command_line w prog flags source_name target_name extra HF Hs)
    as Hstart.
  change (source_opens
            (main w (command_line prog flags source_name target_name extra)).1 =
          [quick_source; plain_source]).
  destruct (open_again w plain_source source_name) as [again|] eqn:H3.
  - rewrite (prepare_reopened _ _ _ _ _ H1 H2 H3) in Hstart.
    pose proof (thread_loop_reports (client_side_last_use_reason first)
                  (client_side_last_use first) ∅) as Hrep.
    assert (Hlater : exists rest,
               (main w (command_line prog flags source_name target_name extra)).1 =
               first_pass_log source_name target_name first ++
               SrcOpen plain_source source_name true :: rest /\
               Forall is_later rest).
    { destruct (thread_loop (client_side_last_use_reason first)
                  (client_side_last_use first) ∅) as [flog [m|o]]; simpl in *.
      - destruct (after_reopen_later _ _ _ _ _ Hstart) as (rest & Hmain & Hrest).
        rewrite Hmain. simpl. rewrite <- app_assoc. simpl.
        eexists. split; [reflexivity|]. apply Forall_app. split; [|exact Hrest].
        eapply Forall_impl; [exact Hrep|]. apply later_of_report.
      - rewrite (main_startup_stops _ _ _ _ Hstart). simpl.
        eexists. split; [reflexivity|].
        eapply Forall_impl; [exact Hrep|]. apply later_of_report. }
    destruct Hlater as (rest & Hmain & Hrest).
    rewrite Hmain, source_opens_app, source_opens_first_pass, source_opens_open.
    rewrite source_opens_later by exact Hrest.
    reflexivity.
  - rewrite (prepare_no_reopen _ _ _ _ H1 H2 H3) in Hstart.
    rewrite (main_startup_stops _ _ _ _ Hstart). cbn [fst].
    rewrite source_opens_app, source_opens_first_pass. reflexivity.
Qed.

(** C6: the header.  In any run, either nothing at all is written to the
    output file, or the run starts by opening the source and the output and
    writing the header, before any call; that header is the one of the
    source with one more conversion entry, which names the operation
    [inject_client_side_delete] and the source file and has an empty info;
    the length recorded in [jsonLength] and the length written are the
    length of its text; and no header is written again. *)
Theorem header_written_once w argv :
  (header_writes (main w argv).1 = [] /\ file_data (main w argv).1 = [])
  \/
  (exists source_name target_name first rest,
     open_first w quick_source source_name = Some first /\
     let new_header :=
       {| members := members (header first);
          conversions := conversions (header first) ++
            [ {| operation := "inject_client_side_delete";
                 source := source_name;
                 info := [] |} ] |} in
     let json_header := FastWriter_write new_header in
     (main w argv).1 =
       SrcOpen quick_source source_name true ::
       OutOpen target_name true ::
       OutWriteHeader (string_size json_header) json_header
                      (string_size json_header) :: rest /\
     header_writes rest = []).
Proof.
  destruct (main_log_shape w argv)
    as [H|[(sn & _ & H)|[(sn & tn & first & _ & _ & H)
                         |(sn & tn & first & rest & H1 & _ & H & Hrest)]]].
  - left. split; apply omap_none; (eapply Forall_impl; [exact H|]).
    + apply console_no_header.
    + apply console_no_record.
  - left. rewrite H. split; reflexivity.
  - left. rewrite H. split; reflexivity.
  - right. exists sn, tn, first. eexists. split; [exact H1|].
    split; [rewrite H; unfold first_pass_log; simpl; reflexivity|].
    unfold header_writes. rewrite !omap_app, omap_reads by reflexivity.
    simpl. apply header_writes_later, Hrest.
Qed.

(** ** Where an event of the loop comes from *)

Lemma app_eq_split {A} (l1 l2 before : list A) e after :
  l1 ++ l2 = before ++ e :: after ->
  (exists mid, l1 = before ++ e :: mid /\ after = mid ++ l2) \/
  (exists mid, before = l1 ++ mid /\ l2 = mid ++ e :: after).
Proof.
  revert before. induction l1 as [|x l1 IH]; intros before Heq.
  - right. exists before. auto.
  - destruct before as [|y before]; simpl in Heq.
    + injection Heq as -> <-. left. exists l1. auto.
    + injection Heq as -> Heq.
      destruct (IH _ Heq) as [(mid & -> & ->)|(mid & -> & ->)].
      * left. exists mid. auto.
      * right. exists mid. auto.
Qed.

(** An event of a concatenation of rounds lies in one of the rounds, or
    after all of them. *)
Lemma flat_map_split {A B} (f : A -> list B) l tail before e after :
  flat_map f l ++ tail = before ++ e :: after ->
  (exists pre x post b1 a1,
     l = pre ++ x :: post /\ f x = b1 ++ e :: a1 /\
     before = flat_map f pre ++ b1 /\
     after = a1 ++ flat_map f post ++ tail) \/
  (exists mid, before = flat_map f l ++ mid /\ tail = mid ++ e :: after).
Proof.
  revert before. induction l as [|x l IH]; intros before Heq.
  - right. exists before. auto.
  - simpl in Heq. rewrite <- app_assoc in Heq.
    destruct (app_eq_split _ _ _ _ _ Heq) as [(mid & Hx & ->)|(mid & -> & Hrest)].
    + left. exists [], x, l, before, mid. auto.
    + destruct (IH _ Hrest)
        as [(pre & y & post & b1 & a1 & -> & Hy & -> & ->)|(mid' & -> & ->)].
      * left. exists (x :: pre), y, post, b1, a1.
        repeat split; [exact Hy|]. simpl. rewrite app_assoc. reflexivity.
      * right. exists mid'. simpl. rewrite app_assoc. auto.
Qed.

(** A write of the loop is either the call just read, or the call injected
    for the call read and written just before. *)
Lemma write_in_loop m stream count before data len after :
  flat_map (round_log m) stream ++ SrcNextCall None :: finish_log count =
    before ++ OutWrite data len :: after ->
  exists before' r,
    In r stream /\
    ((before = before' ++ [SrcNextCall (Some r)] /\
      OutWrite data len = staged r) \/
     (before = before' ++ [SrcNextCall (Some r); staged r] /\
      map_count_pos m (mCallNo r) = true /\
      OutWrite data len = staged (make_deletion m r))).
Proof.
  intros Heq.
  destruct (flat_map_split _ _ _ _ _ _ Heq)
    as [(pre & c & post & b1 & a1 & -> & Hc & -> & ->)|(mid & _ & Htail)].
  - exists (flat_map (round_log m) pre), c.
    split; [apply in_elt|].
    unfold round_log, written_for in Hc.
    destruct b1 as [|e b1]; simpl in Hc; [discriminate|].
    injection Hc as <- Hc.
    destruct (map_count_pos m (mCallNo c)) eqn:E; simpl in Hc.
    + destruct b1 as [|e1 b1]; simpl in Hc.
      { injection Hc as <- <- _. left. auto. }
      injection Hc as <- Hc.
      destruct b1 as [|e2 b1]; simpl in Hc.
      { injection Hc as <- <- _. right. auto. }
      injection Hc as _ Hc. destruct b1; discriminate.
    + destruct b1 as [|e1 b1]; simpl in Hc.
      { injection Hc as <- <- _. left. auto. }
      injection Hc as _ Hc. destruct b1; discriminate.
  - exfalso.
    assert (Hin : In (OutWrite data len) (SrcNextCall None :: finish_log count)).
    { rewrite Htail. apply in_elt. }
    simpl in Hin.
    destruct Hin as [H|[H|[H|[H|[]]]]]; discriminate.
Qed.

Lemma make_deletion_known m r b :
  m !! mCallNo r = Some b ->
  make_deletion m r = deletion_call b (mTid r).
Proof.
  intros H. unfold make_deletion, deletion_call, map_index. rewrite H.
  reflexivity.
Qed.

Lemma map_count_pos_true m key :
  map_count_pos m key = true <-> exists b, m !! key = Some b.
Proof.
  unfold map_count_pos. destruct (m !! key) as [b|].
  - split; eauto.
  - split; [discriminate|]. intros [b H]. discriminate.
Qed.

(** ** What reaches the output file *)

Lemma first_pass_no_record source_name target_name first :
  Forall (fun e => record_write e = None)
         (first_pass_log source_name target_name first).
Proof.
  unfold first_pass_log. repeat (apply Forall_cons; split; [reflexivity|]).
  apply Forall_app. split.
  - apply Forall_map, Forall_forall. reflexivity.
  - repeat constructor.
Qed.

Lemma startup_no_record w argv :
  Forall (fun e => record_write e = None) (startup w argv).1.
Proof.
  destruct (startup_cases w argv)
    as [(log & code & Heq & Hlog)|(source_name & target_name & Heq)].
  { rewrite Heq. simpl. eapply Forall_impl; [exact Hlog|].
    apply console_no_record. }
  rewrite Heq.
  destruct (prepare_cases w source_name target_name)
    as [H1|[(first & H1 & H2)|[(first & H1 & H2 & H3)|(first & again & H1 & H2 & H3)]]].
  - rewrite (prepare_no_source _ _ _ H1). repeat constructor.
  - rewrite (prepare_no_target _ _ _ _ H1 H2). repeat constructor.
  - rewrite (prepare_no_reopen _ _ _ _ H1 H2 H3). cbn [fst].
    apply Forall_app. split; [apply first_pass_no_record|repeat constructor].
  - rewrite (prepare_reopened _ _ _ _ _ H1 H2 H3). cbn [fst].
    apply Forall_app. split; [apply first_pass_no_record|].
    apply Forall_cons. split; [reflexivity|].
    eapply Forall_impl; [apply thread_loop_reports|]. apply report_no_record.
Qed.

Lemma file_data_loop m stream :
  file_data (loop_log m stream) = map image (inject m stream).
Proof.
  unfold file_data, loop_log. rewrite omap_app. simpl. rewrite app_nil_r.
  induction stream as [|call stream IH]; [reflexivity|].
  simpl. rewrite omap_app, IH, map_app. f_equal.
  unfold written_for. destruct (map_count_pos m (mCallNo call)); reflexivity.
Qed.

(** Every run that got to the loop did a part of what a complete run does. *)
Lemma main_log_within w argv slog again m :
  startup w argv = (slog, inl (again, m)) ->
  exists rest count,
    (main w argv).1 ++ rest =
    slog ++ flat_map (round_log m) (calls again) ++
    SrcNextCall None :: finish_log count.
Proof.
  intros H. rewrite (main_after_startup _ _ _ _ _ H).
  destruct (rewrite_loop_cases m (calls again) 0)
    as [[_ Heq]|[_ (llog & rest & why & Heq & Hlog)]]; rewrite Heq; simpl.
  - exists [], (0 + triggers m (calls again)).
    rewrite app_nil_r. unfold loop_log. rewrite <- !app_assoc. reflexivity.
  - exists (rest ++ finish_log 0), 0.
    unfold loop_log in Hlog.
    rewrite <- !app_assoc, (app_assoc llog), <- Hlog, <- !app_assoc.
    reflexivity.
Qed.

(** ** Reading the output back *)

Lemma strip_cons_known m call injected out :
  map_count_pos m (mCallNo call) = true ->
  strip m (call :: injected :: out) = call :: strip m out.
Proof. intros E. simpl. rewrite E. reflexivity. Qed.

Lemma strip_cons_other m call out :
  map_count_pos m (mCallNo call) = false ->
  strip m (call :: out) = call :: strip m out.
Proof. intros E. destruct out; simpl; [|rewrite E]; reflexivity. Qed.

Lemma strip_inject m stream : strip m (inject m stream) = stream.
Proof.
  induction stream as [|call stream IH]; [reflexivity|].
  rewrite inject_cons. unfold written_for.
  destruct (map_count_pos m (mCallNo call)) eqn:E.
  - simpl app. rewrite strip_cons_known by exact E. rewrite IH. reflexivity.
  - simpl app. rewrite strip_cons_other by exact E. rewrite IH. reflexivity.
Qed.

(** When no call of the source bears the name of the injected call, the
    injected calls are those of that name. *)
Lemma filter_by_name m stream :
  Forall (fun c => mCallName c <> "glDeleteClientSideBuffer") stream ->
  filter (fun c => mCallName c <> "glDeleteClientSideBuffer") (inject m stream)
  = stream.
Proof.
  induction 1 as [|call stream Hc _ IH]; [reflexivity|].
  rewrite inject_cons. unfold written_for.
  destruct (map_count_pos m (mCallNo call)); simpl app.
  - rewrite filter_cons_True by exact Hc.
    rewrite filter_cons_False by (simpl; intros Hn; apply Hn; reflexivity).
    rewrite IH. reflexivity.
  - rewrite filter_cons_True by exact Hc. rewrite IH. reflexivity.
Qed.

Lemma rewrite_loop_starts m stream count :
  exists next rest, (rewrite_loop m stream count).1 = SrcNextCall next :: rest.
Proof.
  destruct stream as [|call stream]; cbn [rewrite_loop]; rewrite bind_emit;
    eexists _, _; reflexivity.
Qed.

(** Whatever happens later in the run, a call that is read and fits, and
    whose injected call fits, is written, followed by the injected call if
    the map knows its number, and then the next call is read. *)
Lemma rewrite_loop_read m stream count before r after :
  (rewrite_loop m stream count).1 = before ++ SrcNextCall (Some r) :: after ->
  fits r ->
  (map_count_pos m (mCallNo r) = true -> fits (make_deletion m r)) ->
  exists next rest,
    after = map staged (written_for m r) ++ SrcNextCall next :: rest.
Proof.
  revert count before.
  induction stream as [|call stream IH]; intros count before Hlog Hr Hd.
  - cbn [rewrite_loop] in Hlog. rewrite bind_emit in Hlog. simpl in Hlog.
    destruct before as [|e [|e' before]]; discriminate.
  - cbn [rewrite_loop] in Hlog. rewrite bind_emit in Hlog. cbn [fst] in Hlog.
    destruct before as [|e before]; simpl in Hlog.
    + injection Hlog as -> Hlog.
      rewrite (bind_value _ _ _ _ (writeout_fits r Hr)) in Hlog.
      unfold written_for.
      destruct (map_count_pos m (mCallNo r)) eqn:E.
      * rewrite (bind_value _ _ _ _ (writeout_fits _ (Hd eq_refl))) in Hlog.
        destruct (rewrite_loop_starts m stream (count + 1)) as (next & rest & Hn).
        rewrite Hn in Hlog. simpl in Hlog. subst after. eauto.
      * destruct (rewrite_loop_starts m stream count) as (next & rest & Hn).
        rewrite Hn in Hlog. simpl in Hlog. subst after. eauto.
    + injection Hlog as _ Hlog.
      destruct (fits_dec call) as [Hc|Hc].
      2:{ rewrite (bind_stop _ _ _ _ (writeout_overflow call Hc)) in Hlog.
          simpl in Hlog. destruct before; discriminate. }
      rewrite (bind_value _ _ _ _ (writeout_fits call Hc)) in Hlog.
      simpl in Hlog.
      destruct before as [|e1 before]; simpl in Hlog; [discriminate|].
      injection Hlog as _ Hlog.
      destruct (map_count_pos m (mCallNo call)).
      * destruct (fits_dec (make_deletion m call)) as [Hdc|Hdc].
        2:{ rewrite (bind_stop _ _ _ _ (writeout_overflow _ Hdc)) in Hlog.
            simpl in Hlog. destruct before; discriminate. }
        rewrite (bind_value _ _ _ _ (writeout_fits _ Hdc)) in Hlog.
        simpl in Hlog.
        destruct before as [|e2 before]; simpl in Hlog; [discriminate|].
        injection Hlog as _ Hlog.
        exact (IH _ _ Hlog Hr Hd).
      * exact (IH _ _ Hlog Hr Hd).
Qed.

(** * The claims about the second traversal *)

(** C1: a deletion after every last use.  In any run that gets to the loop,
    every call read in the second traversal whose call number is a key of
    the flattened map is written and then followed at once by exactly one
    more write, before the next read: a call named
    [glDeleteClientSideBuffer] whose only argument is the integer the map
    holds under that call number.  (The call and the injected call are
    taken to fit in the staging buffer.) *)
Theorem deletion_follows_last_use w argv slog again m before r after b :
  startup w argv = (slog, inl (again, m)) ->
  (main w argv).1 = slog ++ before ++ SrcNextCall (Some r) :: after ->
  m !! mCallNo r = Some b ->
  fits r ->
  fits {| mCallName := "glDeleteClientSideBuffer"; mCallNo := 0;
          mTid := mTid r; mArgs := [Int_Type b] |} ->
  exists next rest,
    after =
      staged r ::
      staged {| mCallName := "glDeleteClientSideBuffer"; mCallNo := 0;
                mTid := mTid r; mArgs := [Int_Type b] |} ::
      SrcNextCall next :: rest.
Proof.
  intros Hs Hlog Hb Hr Hd.
  assert (E : map_count_pos m (mCallNo r) = true)
    by (apply map_count_pos_true; eauto).
  pose proof (make_deletion_known _ _ _ Hb) as Hdel.
  assert (Hloop : exists tail,
             (main w argv).1 = slog ++ (rewrite_loop m (calls again) 0).1 ++ tail /\
             Forall (fun e => forall c, e <> SrcNextCall (Some c)) tail).
  { rewrite (main_after_startup _ _ _ _ _ Hs).
    destruct (rewrite_loop m (calls again) 0) as [llog [count|o]]; simpl.
    - exists (finish_log count). split; [reflexivity|].
      repeat constructor; discriminate.
    - exists []. rewrite app_nil_r. split; [reflexivity|constructor]. }
  destruct Hloop as (tail & Hmain & Htail).
  rewrite Hmain in Hlog. apply app_inv_head in Hlog.
  destruct (app_eq_split _ _ _ _ _ Hlog) as [(mid & Hin & ->)|(mid & _ & Hin)].
  - destruct (rewrite_loop_read _ _ _ _ _ _ Hin Hr) as (next & rest & ->).
    { intros _. rewrite Hdel. exact Hd. }
    unfold written_for. rewrite E, Hdel. simpl. eauto.
  - exfalso. rewrite Hin in Htail.
    apply Forall_app in Htail as [_ Htail].
    apply Forall_cons in Htail as [Htail _]. exact (Htail r eq_refl).
Qed.

(** C2: the calls of the source come through untouched.  In a run that goes
    through the loop and ends normally, the output file receives the images
    of a list of calls from which, once the injected calls are taken out,
    the calls read in the second traversal remain: each of them once, as it
    was read, in the order in which it was read. *)
Theorem originals_preserved w argv slog again m log :
  startup w argv = (slog, inl (again, m)) ->
  main w argv = (log, Exit 0) ->
  file_data log = map image (inject m (calls again)) /\
  strip m (inject m (calls again)) = calls again.
Proof.
  intros Hs Hrun.
  destruct (main_completed _ _ _ _ _ _ Hs Hrun) as [_ ->].
  split; [|apply strip_inject].
  unfold file_data. rewrite !omap_app.
  fold (file_data slog) (file_data (loop_log m (calls again))).
  rewrite file_data_loop.
  replace (file_data slog) with (@nil (wire * N)).
  - simpl. rewrite app_nil_r. reflexivity.
  - symmetry. apply omap_none.
    pose proof (startup_no_record w argv) as H. rewrite Hs in H. exact H.
Qed.

(** C5: the thread of an injected call.  In any run that gets to the loop,
    every write to the output file is either the call that was read just
    before it, or it comes right after the read of a call whose number the
    map knows and the write of that call, and is then the injected call,
    which carries the thread id of the call read. *)
Theorem deletion_on_trigger_thread w argv slog again m before data len after :
  startup w argv = (slog, inl (again, m)) ->
  (main w argv).1 = before ++ OutWrite data len :: after ->
  exists before' r,
    (before = before' ++ [SrcNextCall (Some r)] /\
     OutWrite data len = staged r)
    \/
    (exists b,
       before = before' ++ [SrcNextCall (Some r); staged r] /\
       m !! mCallNo r = Some b /\
       OutWrite data len =
         staged {| mCallName := "glDeleteClientSideBuffer"; mCallNo := 0;
                   mTid := mTid r; mArgs := [Int_Type b] |}).
Proof.
  intros Hs Hlog.
  destruct (main_log_within _ _ _ _ _ Hs) as (rest & count & Hfull).
  rewrite Hlog, <- app_assoc in Hfull. simpl in Hfull. symmetry in Hfull.
  destruct (app_eq_split _ _ _ _ _ Hfull) as [(mid & Hin & _)|(mid & -> & Hloop)].
  { exfalso. pose proof (startup_no_record w argv) as H.
    rewrite Hs in H. simpl in H. rewrite Hin in H.
    apply Forall_app in H as [_ H]. apply Forall_cons in H as [H _].
    discriminate. }
  destruct (write_in_loop _ _ _ _ _ _ _ Hloop)
    as (before' & r & _ & [[-> Hw]|(-> & E & Hw)]).
  - exists (slog ++ before'), r. left. rewrite <- app_assoc. auto.
  - apply map_count_pos_true in E as [b Hb].
    exists (slog ++ before'), r. right. exists b.
    rewrite <- app_assoc. rewrite (make_deletion_known _ _ _ Hb) in Hw. auto.
Qed.

(** The map the loop works with is the flattening of the table of the
    trace opened first. *)
Lemma startup_value w argv slog again m :
  startup w argv = (slog, inl (again, m)) ->
  exists source_name target_name first,
    open_first w quick_source source_name = Some first /\
    open_output w target_name = true /\
    open_again w plain_source source_name = Some again /\
    m = flatten ∅ (entries (client_side_last_use first)) /\
    reasons_cover (client_side_last_use_reason first)
                  (client_side_last_use first).
Proof.
  intros Hs.
  destruct (startup_cases w argv)
    as [(log & code & Heq & _)|(source_name & target_name & Heq)];
    rewrite Heq in Hs; [discriminate|].
  destruct (prepare_cases w source_name target_name)
    as [H1|[(first & H1 & H2)|[(first & H1 & H2 & H3)|(first & again' & H1 & H2 & H3)]]].
  - rewrite (prepare_no_source _ _ _ H1) in Hs. discriminate.
  - rewrite (prepare_no_target _ _ _ _ H1 H2) in Hs. discriminate.
  - rewrite (prepare_no_reopen _ _ _ _ H1 H2 H3) in Hs. discriminate.
  - rewrite (prepare_reopened _ _ _ _ _ H1 H2 H3) in Hs.
    destruct (thread_loop (client_side_last_use_reason first)
                (client_side_last_use first) ∅) as [flog [m'|o]] eqn:E;
      simpl in Hs; [|discriminate].
    injection Hs as _ <- <-.
    destruct (thread_loop_value _ _ _ _ _ E) as (-> & _ & Hcov).
    exists source_name, target_name, first. auto.
Qed.

(** The program does get to the loop: on a command line with both file
    names, when the three [open] calls succeed and every entry of the table
    has its reason string. *)
Lemma startup_reaches_loop
    w prog flags source_name target_name extra first again :
  Forall (eq "-d") flags ->
  starts_with_dash source_name = false ->
  open_first w quick_source source_name = Some first ->
  open_output w target_name = true ->
  open_again w plain_source source_name = Some again ->
  reasons_cover (client_side_last_use_reason first)
                (client_side_last_use first) ->
  exists slog,
    startup w (command_line prog flags source_name target_name extra) =
    (slog, inl (again, flatten ∅ (entries (client_side_last_use first)))).
Proof.
  intros HF Hs H1 H2 H3 Hcov.
  rewrite (startup_command_line _ _ _ _ _ _ HF Hs).
  rewrite (prepare_reopened _ _ _ _ _ H1 H2 H3).
  destruct (thread_loop_cases (client_side_last_use_reason first)
              (client_side_last_use first) ∅)
    as [[_ (log & Heq & _)]|[Hno _]]; [|contradiction].
  rewrite Heq. simpl. eauto.
Qed.

(** * The flattened map *)

(** C4: last write wins.  The map the two nested loops build holds a call
    number exactly when some entry of the table carries it, and is the
    result of inserting every entry in the order of the iteration.  When an
    entry is the last one with its call number, the map holds the buffer of
    that entry under the number, whatever entries came before; and the loop,
    on reading a call with that number, writes it and then one deletion, for
    that buffer. *)
Theorem flattening_last_write_wins
    reasons threads flog m earlier cs callno later r :
  thread_loop reasons threads ∅ = (flog, inl m) ->
  entries threads = earlier ++ (cs, callno) :: later ->
  Forall (fun pair => pair.2 <> callno) later ->
  mCallNo r = callno ->
  fits r ->
  fits (deletion_call cs (mTid r)) ->
  m = foldl (fun acc pair => <[pair.2 := pair.1]> acc) ∅ (entries threads) /\
  (forall key, is_Some (m !! key) <->
               Exists (fun pair => pair.2 = key) (entries threads)) /\
  m !! callno = Some cs /\
  rewrite_loop m [r] 0 =
    ([ SrcNextCall (Some r);
       staged r;
       staged {| mCallName := "glDeleteClientSideBuffer"; mCallNo := 0;
                 mTid := mTid r; mArgs := [Int_Type cs] |};
       SrcNextCall None ],
     inl 1).
Proof.
  intros Hloop Hent Hlater Hr Hfr Hfd.
  destruct (thread_loop_value _ _ _ _ _ Hloop) as (Hm & _ & _).
  assert (Hcs : m !! callno = Some cs).
  { rewrite Hm, Hent. apply flatten_last, Hlater. }
  split; [exact Hm|]. split; [|split; [exact Hcs|]].
  - intros key. rewrite Hm, flatten_is_Some, lookup_empty.
    split; [intros [[x Hx]|H]; [discriminate|exact H]|auto].
  - rewrite <- Hr in Hcs.
    assert (Hdel : make_deletion m r = deletion_call cs (mTid r))
      by (apply make_deletion_known, Hcs).
    assert (E : map_count_pos m (mCallNo r) = true)
      by (apply map_count_pos_true; eauto).
    rewrite rewrite_loop_fits.
    + unfold loop_log, round_log, written_for. simpl.
      rewrite E, Hdel, triggers_cons, E. reflexivity.
    + unfold inject, written_for. simpl. rewrite E, Hdel.
      repeat constructor; assumption.
Qed.

(** * The staging buffer *)

(** C3, as the program has it: [writeout] compares nothing.  A call whose
    image fits in the staging buffer is written whole, with the full length
    of its image; for a call whose image is longer the program runs past the
    end of the buffer, writes nothing to standard error and does not
    return an error code. *)
Theorem writeout_unchecked call :
  (fits call ->
   writeout call =
   ([OutWrite (Serialize call) (wire_size (Serialize call))], inl tt)) /\
  (~ fits call ->
   exists why, writeout call = ([], inr (Undefined why))).
Proof.
  split.
  - apply writeout_fits.
  - intros H. eexists. apply writeout_overflow, H.
Qed.

(** * Further properties of the program *)

(** ** Options *)

(** The loop started at another index, with another value of [debug], does
    the same and ends the same; only the index it yields is shifted. *)
Lemma option_loop_shift rest argIndex debug :
  option_loop rest argIndex debug =
  match option_loop rest 0 false with
  | (log, inl (k, d)) => (log, inl ((argIndex + k)%nat, orb debug d))
  | (log, inr o) => (log, inr o)
  end.
Proof.
  revert argIndex debug.
  induction rest as [|arg rest IH]; intros argIndex debug.
  - simpl. rewrite Nat.add_0_r, orb_false_r. reflexivity.
  - simpl. destruct (starts_with_dash arg); simpl.
    2:{ rewrite Nat.add_0_r, orb_false_r. reflexivity. }
    destruct (String.eqb arg "-h"); [reflexivity|].
    destruct (String.eqb arg "-d").
    2:{ destruct (String.eqb arg "-v"); reflexivity. }
    rewrite (IH (S argIndex) true), (IH 1%nat true).
    destruct (option_loop rest 0 false) as [log [[k d]|o]]; [|reflexivity].
    simpl. rewrite orb_true_r. repeat f_equal. lia.
Qed.

(** X1: [-d] changes nothing.  The flag sets a variable that nothing reads:
    a run with any number of [-d] in front of the other arguments does what
    the run without them does, and ends the same. *)
Theorem debug_flag_unobserved w prog flags rest :
  Forall (eq "-d") flags ->
  main w (prog :: flags ++ rest) = main w (prog :: rest).
Proof.
  intros HF.
  assert (Hs : startup w (prog :: flags ++ rest) = startup w (prog :: rest)).
  { unfold startup. simpl drop. rewrite !drop_0.
    destruct (option_loop_flags flags rest 1 false HF) as [debug' ->].
    rewrite (option_loop_shift rest (1 + length flags) debug').
    rewrite (option_loop_shift rest 1 false).
    destruct (option_loop rest 0 false) as [log [[k d]|o]]; [|reflexivity].
    rewrite !(bind_value _ _ _ _ eq_refl). cbn [fst snd].
    replace (length (prog :: flags ++ rest) <? 1 + length flags + k + 2)%nat
      with (length (prog :: rest) <? 1 + k + 2)%nat.
    2:{ simpl length. rewrite length_app.
        destruct (Nat.ltb_spec (S (length rest)) (1 + k + 2));
          symmetry; [apply Nat.ltb_lt|apply Nat.ltb_ge]; lia. }
    destruct (length (prog :: rest) <? 1 + k + 2)%nat; [reflexivity|].
    assert (Hat : forall i, argv_at (prog :: flags ++ rest) (1 + length flags + i)
                            = argv_at (prog :: rest) (1 + i)).
    { intros i. unfold argv_at. simpl.
      rewrite lookup_app_r by lia. do 2 f_equal. lia. }
    rewrite (Hat k).
    replace (S (1 + length flags + k)) with (1 + length flags + S k)%nat by lia.
    rewrite (Hat (S k)). reflexivity. }
  unfold main, main_body. rewrite Hs. reflexivity.
Qed.

(** X2: what follows the two file names is never looked at. *)
Theorem extra_arguments_ignored w prog flags source_name target_name extra :
  Forall (eq "-d") flags ->
  starts_with_dash source_name = false ->
  main w (command_line prog flags source_name target_name extra) =
  main w (command_line prog flags source_name target_name []).
Proof.
  intros HF Hs. unfold main, main_body.
  rewrite !(startup_command_line _ _ _ _ _ _ HF Hs). reflexivity.
Qed.

(** ** How a run can end *)








(** ** The flattened map and the table *)

Lemma flatten_lookup (m : gmap Z Z) pairs callno cs :
  flatten m pairs !! callno = Some cs ->
  m !! callno = Some cs \/ (cs, callno) ∈ pairs.
Proof.
  revert m. induction pairs as [|[cs' no] pairs IH]; intros m H.
  - left. exact H.
  - simpl in H. destruct (IH _ H) as [Hm|Hin].
    + unfold insert_entry in Hm. simpl in Hm.
      destruct (decide (no = callno)) as [->|Hne].
      * rewrite lookup_insert_eq in Hm. injection Hm as ->.
        right. apply list_elem_of_here.
      * rewrite lookup_insert_ne in Hm by exact Hne. left. exact Hm.
    + right. apply list_elem_of_further, Hin.
Qed.

Lemma flatten_size (m : gmap Z Z) pairs :
  (size (flatten m pairs) <= size m + length pairs)%nat.
Proof.
  revert m. induction pairs as [|[cs no] pairs IH]; intros m; simpl.
  - lia.
  - etransitivity; [apply IH|]. unfold insert_entry. simpl.
    rewrite map_size_insert. destruct (m !! no); simpl; lia.
Qed.

Lemma flatten_size_fresh (m : gmap Z Z) pairs :
  NoDup pairs.*2 ->
  Forall (fun pair => m !! pair.2 = None) pairs ->
  size (flatten m pairs) = (size m + length pairs)%nat.
Proof.
  revert m. induction pairs as [|[cs no] pairs IH]; intros m Hnd Hfresh; simpl.
  - lia.
  - rewrite fmap_cons in Hnd. apply NoDup_cons in Hnd as [Hno Hnd].
    apply Forall_cons in Hfresh as [Hm Hfresh]. simpl in *.
    rewrite IH.
    + unfold insert_entry. simpl. rewrite map_size_insert, Hm. simpl. lia.
    + exact Hnd.
    + apply Forall_forall. intros [cs' no'] Hin. simpl.
      unfold insert_entry. simpl.
      rewrite lookup_insert_ne.
      * exact (proj1 (Forall_forall _ _) Hfresh _ Hin).
      * intros ->. apply Hno. apply list_elem_of_fmap. exists (cs', no'). auto.
Qed.

Lemma flatten_empty_lookup pairs callno cs :
  flatten ∅ pairs !! callno = Some cs -> (cs, callno) ∈ pairs.
Proof.
  intros H. destruct (flatten_lookup _ _ _ _ H) as [He|Hin].
  - rewrite lookup_empty in He. discriminate.
  - exact Hin.
Qed.

(** X5: nothing but the table.  Whatever the table holds, every value the
    flattened map holds under a call number is the buffer of some entry of
    the table with that number, and the map has at most as many keys as the
    table has entries. *)
Theorem flattened_from_table reasons threads flog (m : gmap Z Z) :
  thread_loop reasons threads ∅ = (flog, inl m) ->
  (forall callno cs, m !! callno = Some cs -> (cs, callno) ∈ entries threads) /\
  (size m <= length (entries threads))%nat.
Proof.
  intros Hloop.
  destruct (thread_loop_value _ _ _ _ _ Hloop) as (-> & _ & _). split.
  - intros callno cs. apply flatten_empty_lookup.
  - etransitivity; [apply flatten_size|]. rewrite map_size_empty. lia.
Qed.

(** X6: a well-formed table is kept whole.  When no two entries of the
    table carry the same call number, the flattened map holds each entry,
    the buffer under the call number, and has exactly one key for each
    entry. *)
Theorem flattened_table_complete reasons threads flog (m : gmap Z Z) :
  thread_loop reasons threads ∅ = (flog, inl m) ->
  NoDup (entries threads).*2 ->
  (forall callno cs, (cs, callno) ∈ entries threads <-> m !! callno = Some cs) /\
  size m = length (entries threads).
Proof.
  intros Hloop Hnd.
  destruct (thread_loop_value _ _ _ _ _ Hloop) as (Hm & _ & _). split.
  - intros callno cs. split; [|rewrite Hm; apply flatten_empty_lookup].
    intros Hin. apply list_elem_of_split in Hin as (earlier & later & Heq).
    rewrite Hm, Heq. apply flatten_last.
    rewrite Heq, fmap_app, fmap_cons in Hnd.
    apply NoDup_app in Hnd as (_ & _ & Hnd).
    apply NoDup_cons in Hnd as [Hno _]. simpl in Hno.
    apply Forall_forall. intros [cs' no'] Hin' Heq'. simpl in Heq'. subst no'.
    apply Hno. apply list_elem_of_fmap. exists (cs', callno). auto.
  - rewrite Hm, flatten_size_fresh.
    + rewrite map_size_empty. reflexivity.
    + exact Hnd.
    + apply Forall_forall. intros pair _. apply lookup_empty.
Qed.

(** ** The count *)

Lemma triggers_size (m : gmap Z Z) stream :
  NoDup (mCallNo <$> stream) ->
  (forall key, is_Some (m !! key) -> key ∈ mCallNo <$> stream) ->
  triggers m stream = Z.of_nat (size m).
Proof.
  intros Hnd Hcov. unfold triggers. f_equal.
  set (known := filter (fun c => map_count_pos m (mCallNo c) = true) stream).
  assert (Hnd' : NoDup (mCallNo <$> known)).
  { eapply sublist_NoDup; [exact Hnd|].
    apply fmap_sublist, sublist_filter. }
  rewrite <- (length_fmap mCallNo known).
  rewrite <- (size_list_to_set (C := gset Z) _ Hnd').
  rewrite <- size_dom. f_equal.
  apply set_eq. intros key.
  rewrite elem_of_list_to_set, elem_of_dom, list_elem_of_fmap. split.
  - intros (c & -> & Hc). apply list_elem_of_filter in Hc as [Hc _].
    apply map_count_pos_true in Hc as [b Hb]. eauto.
  - intros Hk. pose proof (Hcov key Hk) as Hin.
    apply list_elem_of_fmap in Hin as (c & -> & Hc).
    exists c. split; [reflexivity|]. apply list_elem_of_filter. split; [|exact Hc].
    destruct Hk as [b Hb]. apply map_count_pos_true. eauto.
Qed.

(** X7: one deletion for each key.  When the calls of the second traversal
    have distinct call numbers and every key of the map is the number of one
    of them, a run that goes through the loop injects as many calls as the
    map has keys, and says so. *)
Theorem one_deletion_per_key w argv slog again (m : gmap Z Z) :
  startup w argv = (slog, inl (again, m)) ->
  NoDup (mCallNo <$> calls again) ->
  (forall key, is_Some (m !! key) -> key ∈ mCallNo <$> calls again) ->
  Forall fits (inject m (calls again)) ->
  main w argv =
    (slog ++ loop_log m (calls again) ++
     [ SrcClose; OutClose;
       Printf ("Injected %d deletion calls" +:+ nl)
              [ArgInt (Z.of_nat (size m))] ],
     Exit 0) /\
  length (file_data (main w argv).1) = (length (calls again) + size m)%nat.
Proof.
  intros Hs Hnd Hcov Hfit.
  pose proof (main_completes _ _ _ _ _ Hs Hfit) as Hrun.
  pose proof (triggers_size _ _ Hnd Hcov) as Hcount.
  rewrite Hcount in Hrun. split; [exact Hrun|].
  rewrite Hrun. cbn [fst]. unfold file_data. rewrite !omap_app.
  fold (file_data slog) (file_data (loop_log m (calls again))).
  rewrite file_data_loop, !length_app, length_map.
  replace (file_data slog) with (@nil (wire * N)).
  2:{ symmetry. apply omap_none.
      pose proof (startup_no_record w argv) as H. rewrite Hs in H. exact H. }
  simpl length. rewrite ?Nat.add_0_r, ?Nat.add_0_l.
  apply Nat2Z.inj. rewrite Nat2Z.inj_add, <- Hcount. clear.
  induction (calls again) as [|call stream IH]; [reflexivity|].
  rewrite inject_cons, length_app, triggers_cons. simpl length.
  unfold written_for.
  destruct (map_count_pos m (mCallNo call)); simpl length; lia.
Qed.

(** X8: a copy when no call number is a key.  When the map knows none of
    the call numbers of the second traversal (an empty table, for one), the
    run writes the calls as they come, one write after each read, injects
    nothing and reports zero. *)
Theorem plain_copy_without_keys w argv slog again (m : gmap Z Z) :
  startup w argv = (slog, inl (again, m)) ->
  Forall (fun c => m !! mCallNo c = None) (calls again) ->
  Forall fits (calls again) ->
  main w argv =
    (slog ++
     flat_map (fun c => [SrcNextCall (Some c); staged c]) (calls again) ++
     [ SrcNextCall None; SrcClose; OutClose;
       Printf ("Injected %d deletion calls" +:+ nl) [ArgInt 0] ],
     Exit 0) /\
  file_data (main w argv).1 = map image (calls again).
Proof.
  intros Hs Hnone Hfit.
  assert (Hinj : inject m (calls again) = calls again /\
                 triggers m (calls again) = 0 /\
                 flat_map (round_log m) (calls again) =
                 flat_map (fun c => [SrcNextCall (Some c); staged c]) (calls again)).
  { clear - Hnone. induction Hnone as [|call stream Hc _ (IH1 & IH2 & IH3)].
    - auto.
    - rewrite inject_cons, triggers_cons. simpl flat_map.
      rewrite IH1, IH2, IH3.
      unfold round_log, written_for, map_count_pos. rewrite Hc.
      auto. }
  destruct Hinj as (Hinj & Htr & Hlog).
  assert (Hrun : main w argv =
                 (slog ++ loop_log m (calls again) ++ finish_log 0, Exit 0)).
  { rewrite (main_completes _ _ _ _ _ Hs), Htr; [reflexivity|].
    rewrite Hinj. exact Hfit. }
  split.
  - rewrite Hrun. unfold loop_log. rewrite Hlog, <- !app_assoc. reflexivity.
  - rewrite Hrun. cbn [fst]. unfold file_data. rewrite !omap_app.
    fold (file_data slog) (file_data (loop_log m (calls again))).
    rewrite file_data_loop, Hinj.
    replace (file_data slog) with (@nil (wire * N)).
    + simpl. rewrite app_nil_r. reflexivity.
    + symmetry. apply omap_none.
      pose proof (startup_no_record w argv) as H. rewrite Hs in H. exact H.
Qed.

(** ** A table without its reasons *)

(** X9: a missing reason string stops the run.  When both files open and
    the source opens again, but some entry of the table has no reason string,
    the log line of that entry throws [std::out_of_range], which nothing
    catches: the header is in the output, the second traversal has not
    begun, and the run has only reported on the table so far. *)
Theorem missing_reason_aborts
    w prog flags source_name target_name extra first again :
  Forall (eq "-d") flags ->
  starts_with_dash source_name = false ->
  open_first w quick_source source_name = Some first ->
  open_output w target_name = true ->
  open_again w plain_source source_name = Some again ->
  ~ reasons_cover (client_side_last_use_reason first)
                  (client_side_last_use first) ->
  exists flog,
    main w (command_line prog flags source_name target_name extra) =
    (first_pass_log source_name target_name first ++
     SrcOpen plain_source source_name true :: flog,
     Uncaught "std::out_of_range") /\
    Forall is_report flog.
Proof.
  intros HF Hs H1 H2 H3 Hno.
  destruct (thread_loop_cases (client_side_last_use_reason first)
              (client_side_last_use first) ∅)
    as [[Hcov _]|[_ (flog & Heq & Hrep)]]; [contradiction|].
  exists flog. split; [|exact Hrep].
  apply main_startup_stops.
  rewrite (startup_command_line _ _ _ _ _ _ HF Hs).
  rewrite (prepare_reopened _ _ _ _ _ H1 H2 H3), Heq. reflexivity.
Qed.

(** X10: the count line of a thread.  For each thread the first thing the
    flattening prints is the thread id and the number of its entries; the
    number is the true one as long as it is below 2^31, the conversion to
    [int] being then the identity. *)
Theorem thread_count_line reasons tid pairs threads (m : gmap Z Z) :
  Z.of_nat (length pairs) < 2 ^ 31 ->
  exists rest,
    (thread_loop reasons ((tid, pairs) :: threads) m).1 =
    Printf ("Thread %d has %d cs:call pairs" +:+ nl)
           [ArgInt tid; ArgInt (Z.of_nat (length pairs))] :: rest.
Proof.
  intros Hlt. cbn [thread_loop]. rewrite bind_emit. cbn [fst].
  replace (to_int (Z.of_nat (length pairs))) with (Z.of_nat (length pairs)).
  - eexists. reflexivity.
  - unfold to_int. rewrite Z.mod_small; lia.
Qed.

(** ** A call that does not fit *)






(** ** What each traversal is used for *)

(** A log without the calls handed out by [next_call]. *)
Definition but_reads (e : event) : option event :=
  match e with SrcNextCall _ => None | _ => Some e end.

Definition without_reads (log : list event) : list event := omap but_reads log.

(** Two results of the first [open] that give the same header and the same
    tables, and two results of the second that give the same calls. *)
Definition same_tables (a b : option TraceFile) : Prop :=
  match a, b with
  | Some t, Some t' =>
      header t = header t' /\
      client_side_last_use t = client_side_last_use t' /\
      client_side_last_use_reason t = client_side_last_use_reason t'
  | None, None => True
  | _, _ => False
  end.

Definition same_calls (a b : option TraceFile) : Prop :=
  match a, b with
  | Some t, Some t' => calls t = calls t'
  | None, None => True
  | _, _ => False
  end.

Lemma startup_parse argv :
  (exists log code, forall w, startup w argv = (log, inr (Exit code))) \/
  (exists source_name target_name,
     forall w, startup w argv = prepare w source_name target_name).
Proof.
  unfold startup.
  destruct (option_loop_cases (drop 1 argv) 1 false)
    as [(i & d & Heq)|(log & code & Heq & Hlog)].
  - rewrite Heq.
    destruct (length argv <? i + 2)%nat eqn:E.
    + left. eexists _, _. intros w. rewrite bind_ret, E. reflexivity.
    + right. eexists _, _. intros w. rewrite bind_ret, E. reflexivity.
  - left. exists log, code. intros w. rewrite (bind_stop _ _ _ _ Heq). reflexivity.
Qed.

Lemma without_reads_first_pass source_name target_name first first' :
  header first = header first' ->
  without_reads (first_pass_log source_name target_name first) =
  without_reads (first_pass_log source_name target_name first').
Proof.
  intros Hh. unfold without_reads, first_pass_log, written_header.
  rewrite Hh. simpl. rewrite !omap_app, !omap_reads by reflexivity.
  reflexivity.
Qed.

(** X13: what each traversal is used for.  The calls of the first traversal
    and the header and tables of the second are not used: two runs on the
    same command line, for which the output opens alike, the first [open]
    gives the same header and tables and the second [open] the same calls,
    end the same and do the same, the calls handed out by [next_call] left
    aside. *)
Theorem traversals_use_what_they_need w w' argv :
  (forall path, open_output w path = open_output w' path) ->
  (forall p path, same_tables (open_first w p path) (open_first w' p path)) ->
  (forall p path, same_calls (open_again w p path) (open_again w' p path)) ->
  (main w argv).2 = (main w' argv).2 /\
  without_reads (main w argv).1 = without_reads (main w' argv).1.
Proof.
  intros Hout Hfirst Hagain.
  destruct (startup_parse argv) as [(log & code & H)|(s & t & H)].
  { rewrite (main_startup_stops _ _ _ _ (H w)).
    rewrite (main_startup_stops _ _ _ _ (H w')). auto. }
  pose proof (Hfirst quick_source s) as Hf.
  pose proof (Hagain plain_source s) as Ha.
  pose proof (Hout t) as Ho.
  destruct (open_first w quick_source s) as [first|] eqn:E1;
    destruct (open_first w' quick_source s) as [first'|] eqn:E1';
    simpl in Hf; try contradiction.
  2:{ pose proof (H w) as Hw. pose proof (H w') as Hw'.
      rewrite (prepare_no_source _ _ _ E1) in Hw.
      rewrite (prepare_no_source _ _ _ E1') in Hw'.
      rewrite (main_startup_stops _ _ _ _ Hw), (main_startup_stops _ _ _ _ Hw').
      auto. }
  destruct Hf as (Hh & Hlu & Hre).
  destruct (open_output w t) eqn:E2; symmetry in Ho.
  2:{ pose proof (H w) as Hw. pose proof (H w') as Hw'.
      rewrite (prepare_no_target _ _ _ _ E1 E2) in Hw.
      rewrite (prepare_no_target _ _ _ _ E1' Ho) in Hw'.
      rewrite (main_startup_stops _ _ _ _ Hw), (main_startup_stops _ _ _ _ Hw').
      auto. }
  pose proof (without_reads_first_pass s t _ _ Hh) as Hpass.
  destruct (open_again w plain_source s) as [again|] eqn:E3;
    destruct (open_again w' plain_source s) as [again'|] eqn:E3';
    simpl in Ha; try contradiction.
  2:{ pose proof (H w) as Hw. pose proof (H w') as Hw'.
      rewrite (prepare_no_reopen _ _ _ _ E1 E2 E3) in Hw.
      rewrite (prepare_no_reopen _ _ _ _ E1' Ho E3') in Hw'.
      rewrite (main_startup_stops _ _ _ _ Hw), (main_startup_stops _ _ _ _ Hw').
      cbn [fst snd]. split; [reflexivity|].
      unfold without_reads in *. rewrite !omap_app, Hpass. reflexivity. }
  pose proof (H w) as Hw. pose proof (H w') as Hw'.
  rewrite (prepare_reopened _ _ _ _ _ E1 E2 E3) in Hw.
  rewrite (prepare_reopened _ _ _ _ _ E1' Ho E3') in Hw'.
  rewrite <- Hlu, <- Hre in Hw'.
  destruct (thread_loop (client_side_last_use_reason first)
              (client_side_last_use first) ∅) as [flog [m|o]];
    cbn [fst snd] in Hw, Hw'.
  - rewrite (main_after_startup _ _ _ _ _ Hw).
    rewrite (main_after_startup _ _ _ _ _ Hw'), <- Ha.
    destruct (rewrite_loop m (calls again) 0) as [llog [count|o]];
      cbn [fst snd]; (split; [reflexivity|]);
      unfold without_reads in *; rewrite !omap_app, Hpass; reflexivity.
  - rewrite (main_startup_stops _ _ _ _ Hw), (main_startup_stops _ _ _ _ Hw').
    cbn [fst snd]. split; [reflexivity|].
    unfold without_reads in *. rewrite !omap_app, Hpass. reflexivity.
Qed.

End Tool.

(** * The program at work

    The program run on the small traces, with the stand-ins for the wire
    format and the JSON writer. *)

Local Abbreviation run :=
  (main CallTM sample_Serialize sample_size sample_writer "r4p1").
Local Abbreviation start := (startup CallTM sample_writer "r4p1").
Local Abbreviation sample_argv := ["clientsidetrim"; "-d"; "in.pat"; "out.pat"].
Local Abbreviation sample_map := (flatten ∅ [(7, 3); (9, 11)]).
Local Abbreviation put := (staged CallTM sample_Serialize sample_size).
Local Abbreviation sample_fits := (fits CallTM sample_Serialize sample_size).

Lemma sample_fits_all call :
  (sample_size call <=? WRITE_BUF_LEN)%N = true -> sample_fits call.
Proof. intros H. apply N.leb_le. exact H. Qed.

Lemma sample_fits_list (l : list CallTM) :
  forallb (fun c => (sample_size c <=? WRITE_BUF_LEN)%N) l = true ->
  Forall sample_fits l.
Proof.
  intros H. apply Forall_forall. intros c Hc.
  apply sample_fits_all.
  apply (proj1 (forallb_forall _ l) H c), list_elem_of_In, Hc.
Qed.

Lemma deletion_follows_last_use_witness :
  start (world_of sample_trace) sample_argv =
    ((start (world_of sample_trace) sample_argv).1,
     inl (sample_trace, sample_map)) /\
  (run (world_of sample_trace) sample_argv).1 =
    (start (world_of sample_trace) sample_argv).1 ++
    [ SrcNextCall CallTM (Some (draw 1 0)); put (draw 1 0);
      SrcNextCall CallTM (Some (draw 2 0)); put (draw 2 0) ] ++
    SrcNextCall CallTM (Some (draw 3 0)) ::
    drop 23 (run (world_of sample_trace) sample_argv).1 /\
  sample_map !! mCallNo (draw 3 0) = Some 7 /\
  sample_fits (draw 3 0) /\
  sample_fits {| mCallName := "glDeleteClientSideBuffer"; mCallNo := 0;
                 mTid := mTid (draw 3 0); mArgs := [Int_Type 7] |} /\
  exists next rest,
    drop 23 (run (world_of sample_trace) sample_argv).1 =
    put (draw 3 0) ::
    put {| mCallName := "glDeleteClientSideBuffer"; mCallNo := 0;
           mTid := mTid (draw 3 0); mArgs := [Int_Type 7] |} ::
    SrcNextCall CallTM next :: rest.
Proof.
  assert (H1 : start (world_of sample_trace) sample_argv =
               ((start (world_of sample_trace) sample_argv).1,
                inl (sample_trace, sample_map)))
    by (vm_compute; reflexivity).
  assert (H2 : (run (world_of sample_trace) sample_argv).1 =
               (start (world_of sample_trace) sample_argv).1 ++
               [ SrcNextCall CallTM (Some (draw 1 0)); put (draw 1 0);
                 SrcNextCall CallTM (Some (draw 2 0)); put (draw 2 0) ] ++
               SrcNextCall CallTM (Some (draw 3 0)) ::
               drop 23 (run (world_of sample_trace) sample_argv).1)
    by (vm_compute; reflexivity).
  assert (H3 : sample_map !! mCallNo (draw 3 0) = Some 7)
    by (vm_compute; reflexivity).
  assert (H4 : sample_fits (draw 3 0))
    by (apply sample_fits_all; vm_compute; reflexivity).
  assert (H5 : sample_fits
                 {| mCallName := "glDeleteClientSideBuffer"; mCallNo := 0;
                    mTid := mTid (draw 3 0); mArgs := [Int_Type 7] |})
    by (apply sample_fits_all; vm_compute; reflexivity).
  split; [exact H1|]. split; [exact H2|]. split; [exact H3|].
  split; [exact H4|]. split; [exact H5|].
  exact (deletion_follows_last_use _ _ _ _ _ _ _ _ _ _ _ _ _ _ H1 H2 H3 H4 H5).
Defined.

Lemma originals_preserved_witness :
  start (world_of sample_trace) sample_argv =
    ((start (world_of sample_trace) sample_argv).1,
     inl (sample_trace, sample_map)) /\
  run (world_of sample_trace) sample_argv =
    ((run (world_of sample_trace) sample_argv).1, Exit 0) /\
  file_data CallTM (run (world_of sample_trace) sample_argv).1 =
    map (image CallTM sample_Serialize sample_size)
        (inject sample_map (calls sample_trace)) /\
  strip sample_map (inject sample_map (calls sample_trace)) =
    calls sample_trace.
Proof.
  assert (H1 : start (world_of sample_trace) sample_argv =
               ((start (world_of sample_trace) sample_argv).1,
                inl (sample_trace, sample_map)))
    by (vm_compute; reflexivity).
  assert (H2 : run (world_of sample_trace) sample_argv =
               ((run (world_of sample_trace) sample_argv).1, Exit 0))
    by (vm_compute; reflexivity).
  split; [exact H1|]. split; [exact H2|].
  exact (originals_preserved _ _ _ _ _ _ _ _ _ _ _ H1 H2).
Defined.

Lemma deletion_on_trigger_thread_witness :
  start (world_of sample_trace) sample_argv =
    ((start (world_of sample_trace) sample_argv).1,
     inl (sample_trace, sample_map)) /\
  (run (world_of sample_trace) sample_argv).1 =
    take 24 (run (world_of sample_trace) sample_argv).1 ++
    put (deletion_call 7 0) ::
    drop 25 (run (world_of sample_trace) sample_argv).1 /\
  exists before' r,
    (take 24 (run (world_of sample_trace) sample_argv).1 =
       before' ++ [SrcNextCall CallTM (Some r)] /\
     put (deletion_call 7 0) = put r)
    \/
    (exists b,
       take 24 (run (world_of sample_trace) sample_argv).1 =
         before' ++ [SrcNextCall CallTM (Some r); put r] /\
       sample_map !! mCallNo r = Some b /\
       put (deletion_call 7 0) =
         put {| mCallName := "glDeleteClientSideBuffer"; mCallNo := 0;
                mTid := mTid r; mArgs := [Int_Type b] |}).
Proof.
  assert (H1 : start (world_of sample_trace) sample_argv =
               ((start (world_of sample_trace) sample_argv).1,
                inl (sample_trace, sample_map)))
    by (vm_compute; reflexivity).
  assert (H2 : (run (world_of sample_trace) sample_argv).1 =
               take 24 (run (world_of sample_trace) sample_argv).1 ++
               put (deletion_call 7 0) ::
               drop 25 (run (world_of sample_trace) sample_argv).1)
    by (vm_compute; reflexivity).
  split; [exact H1|]. split; [exact H2|].
  exact (deletion_on_trigger_thread _ _ _ _ _ _ _ _ _ _ _ _ _ _ H1 H2).
Defined.

Lemma flattening_last_write_wins_witness :
  thread_loop CallTM (client_side_last_use_reason colliding_trace)
              (client_side_last_use colliding_trace) ∅ =
    ((thread_loop CallTM (client_side_last_use_reason colliding_trace)
                  (client_side_last_use colliding_trace) ∅).1,
     inl (flatten ∅ [(7, 3); (8, 3)])) /\
  entries (client_side_last_use colliding_trace) = [(7, 3)] ++ (8, 3) :: [] /\
  Forall (fun pair : Z * Z => pair.2 <> 3) [] /\
  mCallNo (draw 3 0) = 3 /\
  sample_fits (draw 3 0) /\
  sample_fits (deletion_call 8 (mTid (draw 3 0))) /\
  flatten ∅ [(7, 3); (8, 3)] !! 3 = Some 8 /\
  rewrite_loop CallTM sample_Serialize sample_size
               (flatten ∅ [(7, 3); (8, 3)]) [draw 3 0] 0 =
    ([ SrcNextCall CallTM (Some (draw 3 0));
       put (draw 3 0);
       put {| mCallName := "glDeleteClientSideBuffer"; mCallNo := 0;
              mTid := 0; mArgs := [Int_Type 8] |};
       SrcNextCall CallTM None ],
     inl 1).
Proof.
  assert (H1 : thread_loop CallTM (client_side_last_use_reason colliding_trace)
                 (client_side_last_use colliding_trace) ∅ =
               ((thread_loop CallTM (client_side_last_use_reason colliding_trace)
                   (client_side_last_use colliding_trace) ∅).1,
                inl (flatten ∅ [(7, 3); (8, 3)])))
    by (vm_compute; reflexivity).
  assert (H2 : entries (client_side_last_use colliding_trace) =
               [(7, 3)] ++ (8, 3) :: []) by reflexivity.
  assert (H3 : Forall (fun pair : Z * Z => pair.2 <> 3) []) by constructor.
  assert (H4 : mCallNo (draw 3 0) = 3) by reflexivity.
  assert (H5 : sample_fits (draw 3 0))
    by (apply sample_fits_all; vm_compute; reflexivity).
  assert (H6 : sample_fits (deletion_call 8 (mTid (draw 3 0))))
    by (apply sample_fits_all; vm_compute; reflexivity).
  destruct (flattening_last_write_wins CallTM sample_Serialize sample_size
              _ _ _ _ _ _ _ _ _ H1 H2 H3 H4 H5 H6) as (_ & _ & Hlookup & Hloop).
  split; [exact H1|]. split; [exact H2|]. split; [exact H3|].
  split; [exact H4|]. split; [exact H5|]. split; [exact H6|].
  split; [exact Hlookup|exact Hloop].
Defined.

Lemma writeout_unchecked_witness :
  sample_fits (draw 1 0) /\
  writeout CallTM sample_Serialize sample_size (draw 1 0) =
    ([OutWrite CallTM (draw 1 0) 28], inl tt) /\
  ~ sample_fits upload /\
  exists why,
    writeout CallTM sample_Serialize sample_size upload =
    ([], inr (Undefined why)).
Proof.
  assert (H1 : sample_fits (draw 1 0))
    by (apply sample_fits_all; vm_compute; reflexivity).
  assert (H2 : ~ sample_fits upload).
  { intros H. apply N.leb_le in H. vm_compute in H. discriminate. }
  destruct (writeout_unchecked CallTM sample_Serialize sample_size (draw 1 0))
    as [Hfit _].
  destruct (writeout_unchecked CallTM sample_Serialize sample_size upload)
    as [_ Hover].
  split; [exact H1|]. split; [exact (Hfit H1)|].
  split; [exact H2|]. exact (Hover H2).
Defined.

(** C3 as the specification states it fails: a call of more than 150 MiB is
    read in the second traversal and handed to [writeout]; the run ends
    there, past the end of the staging buffer, with nothing on standard
    error and no error code. *)
Lemma staging_overflow_unreported :
  ~ sample_fits upload /\
  run (world_of large_trace) ["clientsidetrim"; "in.pat"; "out.pat"] =
    ([ SrcOpen CallTM quick_source "in.pat" true;
       OutOpen CallTM "out.pat" true;
       OutWriteHeader CallTM 25 "inject_client_side_delete" 25;
       SrcNextCall CallTM (Some upload);
       SrcNextCall CallTM None;
       SrcClose CallTM;
       SrcOpen CallTM plain_source "in.pat" true;
       SrcNextCall CallTM (Some upload) ],
     Undefined "write past the end of the staging buffer") /\
  ~ (exists message code,
       In (Stderr CallTM message)
          (run (world_of large_trace)
               ["clientsidetrim"; "in.pat"; "out.pat"]).1 /\
       (run (world_of large_trace)
            ["clientsidetrim"; "in.pat"; "out.pat"]).2 = Exit code).
Proof.
  split; [|split].
  - intros H. apply N.leb_le in H. vm_compute in H. discriminate.
  - vm_compute. reflexivity.
  - intros (message & code & _ & H). vm_compute in H. discriminate.
Qed.

Lemma header_written_once_witness :
  exists rest,
    (run (world_of sample_trace) sample_argv).1 =
      SrcOpen CallTM quick_source "in.pat" true ::
      OutOpen CallTM "out.pat" true ::
      OutWriteHeader CallTM 25 "inject_client_side_delete" 25 :: rest /\
    header_writes CallTM rest = [].
Proof.
  destruct (header_written_once CallTM sample_Serialize sample_size
              sample_writer "r4p1" (world_of sample_trace) sample_argv)
    as [[H _]|(source_name & target_name & first & rest & Hopen & Hlog & Hrest)].
  - vm_compute in H. discriminate.
  - exists (drop 3 (run (world_of sample_trace) sample_argv).1).
    split; vm_compute; reflexivity.
Defined.

Lemma open_failures_witness :
  Forall (eq "-d") ["-d"] /\
  starts_with_dash "in.pat" = false /\
  run world_without_source sample_argv =
    ([ SrcOpen CallTM quick_source "in.pat" false;
       Stderr CallTM ("Failed to open for reading: in.pat" +:+ nl) ],
     Exit 1) /\
  run world_without_output sample_argv =
    ([ SrcOpen CallTM quick_source "in.pat" true;
       OutOpen CallTM "out.pat" false;
       Stderr CallTM ("Failed to open for writing: out.pat" +:+ nl) ],
     Exit 1) /\
  run world_source_lost sample_argv =
    (first_pass_log CallTM sample_writer "in.pat" "out.pat" sample_trace ++
     [ SrcOpen CallTM plain_source "in.pat" false;
       Stderr CallTM ("Failed to open for reading again: in.pat" +:+ nl) ],
     Exit 1).
Proof.
  assert (H1 : Forall (eq "-d") ["-d"]) by (repeat constructor).
  assert (H2 : starts_with_dash "in.pat" = false) by reflexivity.
  destruct (open_failures CallTM sample_Serialize sample_size sample_writer
              "r4p1" world_without_source "clientsidetrim" ["-d"]
              "in.pat" "out.pat" [] H1 H2) as (Ha & _ & _).
  destruct (open_failures CallTM sample_Serialize sample_size sample_writer
              "r4p1" world_without_output "clientsidetrim" ["-d"]
              "in.pat" "out.pat" [] H1 H2) as (_ & Hb & _).
  destruct (open_failures CallTM sample_Serialize sample_size sample_writer
              "r4p1" world_source_lost "clientsidetrim" ["-d"]
              "in.pat" "out.pat" [] H1 H2) as (_ & _ & Hc).
  split; [exact H1|]. split; [exact H2|].
  split; [exact (Ha eq_refl)|].
  split; [exact (Hb sample_trace eq_refl eq_refl)|].
  exact (Hc sample_trace eq_refl eq_refl eq_refl).
Defined.

Lemma command_line_surface_witness :
  Forall (eq "-d") ["-d"] /\
  run (world_of sample_trace) ["clientsidetrim"; "-d"; "-h"; "in.pat"] =
    ([Stdout CallTM help_text], Exit 1) /\
  run (world_of sample_trace) ["clientsidetrim"; "-d"; "-v"; "in.pat"] =
    ([Stdout CallTM ("r4p1" +:+ nl)], Exit 0) /\
  run (world_of sample_trace) ["clientsidetrim"; "-d"; "-x"; "in.pat"] =
    ([ Stderr CallTM ("Error: Unknown option -x" +:+ nl);
       Stdout CallTM help_text ], Exit 1) /\
  run (world_of sample_trace) ["clientsidetrim"; "-d"] =
    ([Stdout CallTM help_text], Exit 1) /\
  run (world_of sample_trace) ["clientsidetrim"; "-d"; "in.pat"] =
    ([Stdout CallTM help_text], Exit 1) /\
  exists count,
    run (world_of sample_trace) sample_argv =
      ((start (world_of sample_trace) sample_argv).1 ++
       loop_log CallTM sample_Serialize sample_size sample_map
                (calls sample_trace) ++
       [ SrcClose CallTM; OutClose CallTM;
         Printf CallTM ("Injected %d deletion calls" +:+ nl) [ArgInt count] ],
       Exit 0) /\
    Z.of_nat (length (inject sample_map (calls sample_trace))) =
    Z.of_nat (length (calls sample_trace)) + count.
Proof.
  assert (H : Forall (eq "-d") ["-d"]) by (repeat constructor).
  destruct (command_line_surface CallTM sample_Serialize sample_size
              sample_writer "r4p1" (world_of sample_trace) "clientsidetrim"
              ["-d"] H) as (Hh & Hv & Hx & Hnone & Hone & Hrun).
  split; [exact H|].
  split; [exact (Hh ["in.pat"])|].
  split; [exact (Hv ["in.pat"])|].
  split.
  { apply (Hx "-x" ["in.pat"]); [reflexivity|discriminate..]. }
  split; [exact Hnone|].
  split; [exact (Hone "in.pat" eq_refl)|].
  apply (Hrun "in.pat" "out.pat" [] _ sample_trace sample_map).
  - vm_compute. reflexivity.
  - apply sample_fits_list. vm_compute. reflexivity.
Defined.

Lemma names_follow_options_witness :
  Forall (eq "-d") ["-d"] /\
  starts_with_dash "in.pat" = false /\
  run (world_of sample_trace) ["clientsidetrim"; "-d"; "in.pat"; "-h"; "-v"] =
    ([ SrcOpen CallTM quick_source "in.pat" true;
       OutOpen CallTM "-h" false;
       Stderr CallTM ("Failed to open for writing: -h" +:+ nl) ],
     Exit 1) /\
  exists ok rest,
    (run (world_of sample_trace)
         ["clientsidetrim"; "-d"; "in.pat"; "-h"; "-v"]).1 =
      SrcOpen CallTM quick_source "in.pat" ok :: rest /\
    (ok = true ->
     exists ok' rest', rest = OutOpen CallTM "-h" ok' :: rest').
Proof.
  assert (H1 : Forall (eq "-d") ["-d"]) by (repeat constructor).
  assert (H2 : starts_with_dash "in.pat" = false) by reflexivity.
  destruct (names_follow_options CallTM sample_Serialize sample_size
              sample_writer "r4p1" (world_of sample_trace) "clientsidetrim"
              ["-d"] "in.pat" "-h" ["-v"] H1 H2) as (_ & _ & Hlog).
  split; [exact H1|]. split; [exact H2|].
  split; [vm_compute; reflexivity|exact Hlog].
Defined.

Lemma source_modes_witness :
  Forall (eq "-d") ["-d"] /\
  starts_with_dash "in.pat" = false /\
  open_first (world_of sample_trace) quick_source "in.pat" = Some sample_trace /\
  open_output (world_of sample_trace) "out.pat" = true /\
  source_opens CallTM (run (world_of sample_trace) sample_argv).1 =
    [ {| ctor_arg := true; quickMode := Some true; screenshots := Some false |};
      {| ctor_arg := true; quickMode := None; screenshots := None |} ].
Proof.
  assert (H1 : Forall (eq "-d") ["-d"]) by (repeat constructor).
  assert (H2 : starts_with_dash "in.pat" = false) by reflexivity.
  assert (H3 : open_first (world_of sample_trace) quick_source "in.pat" =
               Some sample_trace) by reflexivity.
  assert (H4 : open_output (world_of sample_trace) "out.pat" = true)
    by reflexivity.
  split; [exact H1|]. split; [exact H2|]. split; [exact H3|].
  split; [exact H4|].
  exact (source_modes CallTM sample_Serialize sample_size sample_writer "r4p1"
           (world_of sample_trace) "clientsidetrim" ["-d"] "in.pat" "out.pat"
           [] sample_trace H1 H2 H3 H4).
Defined.

(** ** The further properties at work *)

Lemma debug_flag_unobserved_witness :
  Forall (eq "-d") ["-d"; "-d"] /\
  run (world_of sample_trace)
      ("clientsidetrim" :: ["-d"; "-d"] ++ ["in.pat"; "out.pat"]) =
  run (world_of sample_trace) ("clientsidetrim" :: ["in.pat"; "out.pat"]).
Proof.
  assert (H : Forall (eq "-d") ["-d"; "-d"]) by (repeat constructor).
  split; [exact H|].
  exact (debug_flag_unobserved CallTM sample_Serialize sample_size sample_writer
           "r4p1" (world_of sample_trace) "clientsidetrim" ["-d"; "-d"]
           ["in.pat"; "out.pat"] H).
Defined.

Lemma extra_arguments_ignored_witness :
  Forall (eq "-d") ["-d"] /\
  starts_with_dash "in.pat" = false /\
  run (world_of sample_trace)
      (command_line "clientsidetrim" ["-d"] "in.pat" "out.pat" ["-h"; "more"]) =
  run (world_of sample_trace)
      (command_line "clientsidetrim" ["-d"] "in.pat" "out.pat" []).
Proof.
  assert (H1 : Forall (eq "-d") ["-d"]) by (repeat constructor).
  assert (H2 : starts_with_dash "in.pat" = false) by reflexivity.
  split; [exact H1|]. split; [exact H2|].
  exact (extra_arguments_ignored CallTM sample_Serialize sample_size
           sample_writer "r4p1" (world_of sample_trace) "clientsidetrim"
           ["-d"] "in.pat" "out.pat" ["-h"; "more"] H1 H2).
Defined.


Lemma flattened_from_table_witness :
  thread_loop CallTM (client_side_last_use_reason colliding_trace)
              (client_side_last_use colliding_trace) ∅ =
    ((thread_loop CallTM (client_side_last_use_reason colliding_trace)
                  (client_side_last_use colliding_trace) ∅).1,
     inl (flatten ∅ [(7, 3); (8, 3)])) /\
  (forall callno cs,
     flatten ∅ [(7, 3); (8, 3)] !! callno = Some cs ->
     (cs, callno) ∈ entries (client_side_last_use colliding_trace)) /\
  Nat.le (size (flatten ∅ [(7, 3); (8, 3)]))
         (length (entries (client_side_last_use colliding_trace))).
Proof.
  assert (H : thread_loop CallTM (client_side_last_use_reason colliding_trace)
                (client_side_last_use colliding_trace) ∅ =
              ((thread_loop CallTM (client_side_last_use_reason colliding_trace)
                  (client_side_last_use colliding_trace) ∅).1,
               inl (flatten ∅ [(7, 3); (8, 3)])))
    by (vm_compute; reflexivity).
  split; [exact H|].
  exact (flattened_from_table CallTM _ _ _ _ H).
Defined.

Lemma flattened_table_complete_witness :
  thread_loop CallTM (client_side_last_use_reason sample_trace)
              (client_side_last_use sample_trace) ∅ =
    ((thread_loop CallTM (client_side_last_use_reason sample_trace)
                  (client_side_last_use sample_trace) ∅).1,
     inl sample_map) /\
  NoDup (entries (client_side_last_use sample_trace)).*2 /\
  (forall callno cs,
     (cs, callno) ∈ entries (client_side_last_use sample_trace) <->
     sample_map !! callno = Some cs) /\
  size sample_map = length (entries (client_side_last_use sample_trace)).
Proof.
  assert (H1 : thread_loop CallTM (client_side_last_use_reason sample_trace)
                 (client_side_last_use sample_trace) ∅ =
               ((thread_loop CallTM (client_side_last_use_reason sample_trace)
                   (client_side_last_use sample_trace) ∅).1,
                inl sample_map))
    by (vm_compute; reflexivity).
  assert (H2 : NoDup (entries (client_side_last_use sample_trace)).*2)
    by (apply (bool_decide_unpack _); vm_compute; exact I).
  split; [exact H1|]. split; [exact H2|].
  exact (flattened_table_complete CallTM _ _ _ _ H1 H2).
Defined.

Lemma one_deletion_per_key_witness :
  start (world_of sample_trace) sample_argv =
    ((start (world_of sample_trace) sample_argv).1,
     inl (sample_trace, sample_map)) /\
  NoDup (mCallNo <$> calls sample_trace) /\
  (forall key, is_Some (sample_map !! key) ->
               key ∈ mCallNo <$> calls sample_trace) /\
  Forall sample_fits (inject sample_map (calls sample_trace)) /\
  run (world_of sample_trace) sample_argv =
    ((start (world_of sample_trace) sample_argv).1 ++
     loop_log CallTM sample_Serialize sample_size sample_map
              (calls sample_trace) ++
     [ SrcClose CallTM; OutClose CallTM;
       Printf CallTM ("Injected %d deletion calls" +:+ nl)
              [ArgInt (Z.of_nat (size sample_map))] ],
     Exit 0) /\
  length (file_data CallTM (run (world_of sample_trace) sample_argv).1) =
    (length (calls sample_trace) + size sample_map)%nat.
Proof.
  assert (H1 : start (world_of sample_trace) sample_argv =
               ((start (world_of sample_trace) sample_argv).1,
                inl (sample_trace, sample_map)))
    by (vm_compute; reflexivity).
  assert (H2 : NoDup (mCallNo <$> calls sample_trace))
    by (apply (bool_decide_unpack _); vm_compute; exact I).
  assert (H3 : forall key, is_Some (sample_map !! key) ->
                           key ∈ mCallNo <$> calls sample_trace).
  { intros key Hk. apply flatten_is_Some in Hk as [Hk|Hk].
    - rewrite lookup_empty in Hk. destruct Hk as [x Hx]. discriminate.
    - apply Exists_cons in Hk as [<-|Hk];
        [apply (bool_decide_unpack _); vm_compute; exact I|].
      apply Exists_cons in Hk as [<-|Hk];
        [apply (bool_decide_unpack _); vm_compute; exact I|].
      inversion Hk. }
  assert (H4 : Forall sample_fits (inject sample_map (calls sample_trace)))
    by (apply sample_fits_list; vm_compute; reflexivity).
  split; [exact H1|]. split; [exact H2|]. split; [exact H3|].
  split; [exact H4|].
  exact (one_deletion_per_key _ _ _ _ _ _ _ _ _ _ H1 H2 H3 H4).
Defined.

Lemma plain_copy_without_keys_witness :
  start (world_of plain_trace) sample_argv =
    ((start (world_of plain_trace) sample_argv).1, inl (plain_trace, ∅)) /\
  Forall (fun c => (∅ : gmap Z Z) !! mCallNo c = None) (calls plain_trace) /\
  Forall sample_fits (calls plain_trace) /\
  run (world_of plain_trace) sample_argv =
    ((start (world_of plain_trace) sample_argv).1 ++
     flat_map (fun c => [SrcNextCall CallTM (Some c); put c])
              (calls plain_trace) ++
     [ SrcNextCall CallTM None; SrcClose CallTM; OutClose CallTM;
       Printf CallTM ("Injected %d deletion calls" +:+ nl) [ArgInt 0] ],
     Exit 0) /\
  file_data CallTM (run (world_of plain_trace) sample_argv).1 =
    map (image CallTM sample_Serialize sample_size) (calls plain_trace).
Proof.
  assert (H1 : start (world_of plain_trace) sample_argv =
               ((start (world_of plain_trace) sample_argv).1,
                inl (plain_trace, ∅)))
    by (vm_compute; reflexivity).
  assert (H2 : Forall (fun c => (∅ : gmap Z Z) !! mCallNo c = None)
                      (calls plain_trace)).
  { apply Forall_forall. intros c _. apply lookup_empty. }
  assert (H3 : Forall sample_fits (calls plain_trace))
    by (apply sample_fits_list; vm_compute; reflexivity).
  split; [exact H1|]. split; [exact H2|]. split; [exact H3|].
  exact (plain_copy_without_keys _ _ _ _ _ _ _ _ _ _ H1 H2 H3).
Defined.

Lemma missing_reason_aborts_witness :
  Forall (eq "-d") ["-d"] /\
  starts_with_dash "in.pat" = false /\
  open_first (world_of unexplained_trace) quick_source "in.pat" =
    Some unexplained_trace /\
  open_output (world_of unexplained_trace) "out.pat" = true /\
  open_again (world_of unexplained_trace) plain_source "in.pat" =
    Some unexplained_trace /\
  ~ reasons_cover (client_side_last_use_reason unexplained_trace)
                  (client_side_last_use unexplained_trace) /\
  exists flog,
    run (world_of unexplained_trace) sample_argv =
      (first_pass_log CallTM sample_writer "in.pat" "out.pat"
                      unexplained_trace ++
       SrcOpen CallTM plain_source "in.pat" true :: flog,
       Uncaught "std::out_of_range") /\
    Forall (is_report CallTM) flog.
Proof.
  assert (H1 : Forall (eq "-d") ["-d"]) by (repeat constructor).
  assert (H2 : starts_with_dash "in.pat" = false) by reflexivity.
  assert (H3 : open_first (world_of unexplained_trace) quick_source "in.pat" =
               Some unexplained_trace) by reflexivity.
  assert (H4 : open_output (world_of unexplained_trace) "out.pat" = true)
    by reflexivity.
  assert (H5 : open_again (world_of unexplained_trace) plain_source "in.pat" =
               Some unexplained_trace) by reflexivity.
  assert (H6 : ~ reasons_cover (client_side_last_use_reason unexplained_trace)
                               (client_side_last_use unexplained_trace)).
  { intros H. apply Forall_cons in H as [H _].
    apply Forall_cons in H as [(t & r & H & _) _]. discriminate. }
  split; [exact H1|]. split; [exact H2|]. split; [exact H3|].
  split; [exact H4|]. split; [exact H5|]. split; [exact H6|].
  exact (missing_reason_aborts CallTM sample_Serialize sample_size
           sample_writer "r4p1" (world_of unexplained_trace) "clientsidetrim"
           ["-d"] "in.pat" "out.pat" [] unexplained_trace unexplained_trace
           H1 H2 H3 H4 H5 H6).
Defined.

Lemma thread_count_line_witness :
  Z.of_nat (length [(7, 3); (9, 11)]) < 2 ^ 31 /\
  exists rest,
    (thread_loop CallTM [(0, [(7, "a"); (9, "b")])]
                 [(0, [(7, 3); (9, 11)])] ∅).1 =
    Printf CallTM ("Thread %d has %d cs:call pairs" +:+ nl)
           [ArgInt 0; ArgInt (Z.of_nat (length [(7, 3); (9, 11)]))] :: rest.
Proof.
  assert (H : Z.of_nat (length [(7, 3); (9, 11)]) < 2 ^ 31)
    by (vm_compute; reflexivity).
  split; [exact H|].
  exact (thread_count_line CallTM [(0, [(7, "a"); (9, "b")])] 0
           [(7, 3); (9, 11)] [] ∅ H).
Defined.



Lemma traversals_use_what_they_need_witness :
  (forall path,
     open_output (world_of sample_trace) path =
     open_output (world_of_two tables_only_trace plain_trace) path) /\
  (forall p path,
     same_tables (open_first (world_of sample_trace) p path)
                 (open_first (world_of_two tables_only_trace plain_trace) p path)) /\
  (forall p path,
     same_calls (open_again (world_of sample_trace) p path)
                (open_again (world_of_two tables_only_trace plain_trace) p path)) /\
  (run (world_of sample_trace) sample_argv).2 =
  (run (world_of_two tables_only_trace plain_trace) sample_argv).2 /\
  without_reads CallTM (run (world_of sample_trace) sample_argv).1 =
  without_reads CallTM
    (run (world_of_two tables_only_trace plain_trace) sample_argv).1.
Proof.
  assert (H1 : forall path,
             open_output (world_of sample_trace) path =
             open_output (world_of_two tables_only_trace plain_trace) path)
    by reflexivity.
  assert (H2 : forall p path,
             same_tables
               (open_first (world_of sample_trace) p path)
               (open_first (world_of_two tables_only_trace plain_trace) p path)).
  { intros p path. simpl. destruct (String.eqb path "in.pat"); simpl; auto. }
  assert (H3 : forall p path,
             same_calls
               (open_again (world_of sample_trace) p path)
               (open_again (world_of_two tables_only_trace plain_trace) p path)).
  { intros p path. simpl. destruct (String.eqb path "in.pat"); simpl; auto. }
  split; [exact H1|]. split; [exact H2|]. split; [exact H3|].
  exact (traversals_use_what_they_need CallTM sample_Serialize sample_size
           sample_writer "r4p1" (world_of sample_trace)
           (world_of_two tables_only_trace plain_trace) sample_argv H1 H2 H3).
Defined.

(** * The sRGB decode test

    [src/integration_tests/ext_texture_sRGB_decode.cpp]: three callbacks
    that a test harness calls, and the file-scope variables they share.
    A callback is modelled as a function of those variables that gives the
    GL calls it makes, in order; what the driver answers to a call that
    returns something is given from outside.  The harness itself ([init],
    [compile], [link_shader], [assert_fb]) is declared in [pa_demo.h]; its
    calls are kept as events. *)

Module SRGBDecode.

(** The GL names the file uses. *)
Inductive GLenum : Type :=
| GL_VERTEX_SHADER | GL_FRAGMENT_SHADER
| GL_TEXTURE_2D | GL_TEXTURE0
| GL_UNPACK_ALIGNMENT | GL_SRGB8 | GL_RGB | GL_UNSIGNED_BYTE
| GL_TEXTURE_MIN_FILTER | GL_TEXTURE_MAG_FILTER
| GL_TEXTURE_WRAP_S | GL_TEXTURE_WRAP_T | GL_NEAREST | GL_REPEAT
| GL_TEXTURE_SRGB_DECODE_EXT | GL_SKIP_DECODE_EXT | GL_DECODE_EXT
| GL_FLOAT | GL_FALSE | GL_TRIANGLES
| GL_DEPTH_BUFFER_BIT | GL_COLOR_BUFFER_BIT.

(** The static arrays that are passed by address. *)
Inductive source_text : Type := vertex_shader_source | fragment_shader_source.

Inductive vertex_table : Type := gTriangleVertices | gsRGBTriangleVertices.

Definition pixels : list Z :=
  [ 16; 232; 0;
    48; 96; 64;
    128; 144; 192;
    255; 32; 204 ].

Definition triangle_num : nat := 4.

(** The two tables of [GLfloat]; every value is a multiple of 1/8 and is
    written as the fraction it denotes. *)
Definition table_rows (t : vertex_table) : list (list Q) :=
  match t with
  | gTriangleVertices =>
      [ [ -(3#4); 7#8; 0; -(7#8); 1#8; 0; -(5#8); 1#8; 0 ];
        [ 1#4; 7#8; 0; 1#8; 1#8; 0; 3#8; 1#8; 0 ];
        [ -(3#4); -(1#8); 0; -(7#8); -(7#8); 0; -(5#8); -(7#8); 0 ];
        [ 1#4; -(1#8); 0; 1#8; -(7#8); 0; 3#8; -(7#8); 0 ] ]%Q
  | gsRGBTriangleVertices =>
      [ [ -(1#4); 7#8; 0; -(3#8); 1#8; 0; -(1#8); 1#8; 0 ];
        [ 3#4; 7#8; 0; 5#8; 1#8; 0; 7#8; 1#8; 0 ];
        [ -(1#4); -(1#8); 0; -(3#8); -(7#8); 0; -(1#8); -(7#8); 0 ];
        [ 3#4; -(1#8); 0; 5#8; -(7#8); 0; 7#8; -(7#8); 0 ] ]%Q
  end.

Inductive gl_call : Type :=
| glViewport (x y w h : Z)
| glCreateProgram (result : Z)
| glCreateShader (type : GLenum) (result : Z)
| glShaderSource (shader count : Z) (text : source_text)
                 (lengths : option (list Z))
| compile (name : string) (shader : Z)
| glAttachShader (program shader : Z)
| link_shader (name : string) (program : Z)
| glUseProgram (program : Z)
| glGenTextures (n result : Z)
| glBindTexture (target : GLenum) (texture : Z)
| glPixelStorei (pname : GLenum) (param : Z)
| glTexImage2D (target : GLenum) (level : Z) (internalformat : GLenum)
               (w h border : Z) (format type : GLenum) (data : list Z)
| glTexParameteri (target pname param : GLenum)
| glActiveTexture (texture : GLenum)
| glGetUniformLocation (program : Z) (name : string) (result : Z)
| glUniform1i (location v0 : Z)
| glClearColor (red green blue alpha : Q)
| glClear (mask : list GLenum)
| glVertexAttribPointer (index size : Z) (type normalized : GLenum)
                        (stride : Z) (table : vertex_table) (row : nat)
| glEnableVertexAttribArray (index : Z)
| glDrawArrays (mode : GLenum) (first count : Z)
| glStateDump_ARM
| assert_fb (w h : Z)
| glDeleteShader (shader : Z)
| glDeleteProgram (program : Z).

(** The variables at file scope. *)
Record Globals : Type := {
  gvPositionHandle : Z;
  width : Z;
  height : Z;
  vs : Z;
  fs : Z;
  draw_program : Z;
  g_textureId : Z
}.

(** Their values when the program starts: the two initialisers, and zero
    for the rest. *)
Definition initial : Globals :=
  {| gvPositionHandle := 0; width := 1024; height := 600;
     vs := 0; fs := 0; draw_program := 0; g_textureId := 0 |}.

(** What the driver answers during one [setupGraphics]. *)
Record Answers : Type := {
  new_program : Z;
  new_vs : Z;
  new_fs : Z;
  new_texture : Z;
  s_texture_location : Z
}.

Definition setupGraphics (g : Globals) (w h : Z) (a : Answers)
    : Globals * list gl_call * Z :=
  let width := w in
  let height := h in
  let draw_program := new_program a in
  let vs := new_vs a in
  let fs := new_fs a in
  let g_textureId := new_texture a in
  ({| gvPositionHandle := gvPositionHandle g; width := width; height := height;
      vs := vs; fs := fs; draw_program := draw_program;
      g_textureId := g_textureId |},
   [ glViewport 0 0 width height;
     glCreateProgram draw_program;
     glCreateShader GL_VERTEX_SHADER vs;
     glShaderSource vs 1 vertex_shader_source None;
     compile "vertex_shader_source" vs;
     glCreateShader GL_FRAGMENT_SHADER fs;
     glShaderSource fs 1 fragment_shader_source None;
     compile "fragment_shader_source" fs;
     glAttachShader draw_program vs;
     glAttachShader draw_program fs;
     link_shader "draw_program" draw_program;
     glUseProgram draw_program;
     glGenTextures 1 g_textureId;
     glBindTexture GL_TEXTURE_2D g_textureId;
     glPixelStorei GL_UNPACK_ALIGNMENT 1;
     glTexImage2D GL_TEXTURE_2D 0 GL_SRGB8 2 2 0 GL_RGB GL_UNSIGNED_BYTE pixels;
     glTexParameteri GL_TEXTURE_2D GL_TEXTURE_MIN_FILTER GL_NEAREST;
     glTexParameteri GL_TEXTURE_2D GL_TEXTURE_MAG_FILTER GL_NEAREST;
     glTexParameteri GL_TEXTURE_2D GL_TEXTURE_WRAP_S GL_REPEAT;
     glTexParameteri GL_TEXTURE_2D GL_TEXTURE_WRAP_T GL_REPEAT;
     glActiveTexture GL_TEXTURE0;
     glBindTexture GL_TEXTURE_2D g_textureId;
     glGetUniformLocation draw_program "s_texture" (s_texture_location a);
     glUniform1i (s_texture_location a) 0 ],
   0).

(** The body of each of the two [for] loops of [callback_draw]. *)
Definition draw_triangle (g : Globals) (table : vertex_table) (i : nat)
    : list gl_call :=
  [ glUseProgram (draw_program g);
    glVertexAttribPointer (gvPositionHandle g) 3 GL_FLOAT GL_FALSE 0 table i;
    glEnableVertexAttribArray (gvPositionHandle g);
    glDrawArrays GL_TRIANGLES 0 3 ].

Definition callback_draw (g : Globals) : list gl_call :=
  [ glClearColor 0 (1#2) (1#2) 1;
    glClear [GL_DEPTH_BUFFER_BIT; GL_COLOR_BUFFER_BIT];
    glActiveTexture GL_TEXTURE0;
    glBindTexture GL_TEXTURE_2D (g_textureId g);
    glTexParameteri GL_TEXTURE_2D GL_TEXTURE_SRGB_DECODE_EXT GL_SKIP_DECODE_EXT ]
  ++ flat_map (draw_triangle g gTriangleVertices) (seq 0 triangle_num)
  ++ [ glTexParameteri GL_TEXTURE_2D GL_TEXTURE_SRGB_DECODE_EXT GL_DECODE_EXT ]
  ++ flat_map (draw_triangle g gsRGBTriangleVertices) (seq 0 triangle_num)
  ++ [ glStateDump_ARM; assert_fb (width g) (height g) ].

Definition test_cleanup (g : Globals) : list gl_call :=
  [ glDeleteShader (vs g); glDeleteShader (fs g);
    glDeleteProgram (draw_program g) ].

(** ** Sessions

    The harness decides when each callback runs.  A session is any sequence
    of callback invocations, started with the variables as the program
    starts. *)
Inductive invocation : Type :=
| Setup (w h : Z) (a : Answers)
| Draw
| Cleanup.

Definition invoke (g : Globals) (i : invocation) : Globals * list gl_call :=
  match i with
  | Setup w h a => (setupGraphics g w h a).1
  | Draw => (g, callback_draw g)
  | Cleanup => (g, test_cleanup g)
  end.

Fixpoint session (g : Globals) (invs : list invocation)
    : Globals * list gl_call :=
  match invs with
  | [] => (g, [])
  | i :: invs' =>
      let '(g', calls) := invoke g i in
      let '(g'', calls') := session g' invs' in
      (g'', calls ++ calls')
  end.

Definition is_setup (i : invocation) : Prop :=
  match i with Setup _ _ _ => True | _ => False end.

(** The attribute index of a call that has one. *)
Definition attribute_index (c : gl_call) : option Z :=
  match c with
  | glVertexAttribPointer index _ _ _ _ _ _ => Some index
  | glEnableVertexAttribArray index => Some index
  | _ => None
  end.

(** The draws of a list of calls: for each [glDrawArrays], the program in
    use, the sRGB decode setting of the 2D texture, the table and row the
    vertex attribute points to, and how many floats the draw fetches from
    there (components times vertices, the stride being zero). *)
Record draw_state : Type := {
  program_in_use : option Z;
  decode : option GLenum;
  pointer : option (vertex_table * nat * Z)
}.

Definition track (st : draw_state) (c : gl_call) : draw_state :=
  match c with
  | glUseProgram p =>
      {| program_in_use := Some p; decode := decode st; pointer := pointer st |}
  | glTexParameteri GL_TEXTURE_2D GL_TEXTURE_SRGB_DECODE_EXT v =>
      {| program_in_use := program_in_use st; decode := Some v;
         pointer := pointer st |}
  | glVertexAttribPointer _ size _ _ _ table row =>
      {| program_in_use := program_in_use st; decode := decode st;
         pointer := Some (table, row, size) |}
  | _ => st
  end.

Record drawn : Type := {
  with_program : option Z;
  with_decode : option GLenum;
  from_table : option (vertex_table * nat);
  floats_fetched : Z
}.

Fixpoint draws (st : draw_state) (calls : list gl_call) : list drawn :=
  match calls with
  | [] => []
  | glDrawArrays _ first count :: calls' =>
      {| with_program := program_in_use st;
         with_decode := decode st;
         from_table := option_map (fun p => (p.1.1, p.1.2)) (pointer st);
         floats_fetched :=
           match pointer st with
           | Some (_, _, size) => size * (first + count)
           | None => 0
           end |} :: draws st calls'
  | c :: calls' => draws (track st c) calls'
  end.

Definition no_state : draw_state :=
  {| program_in_use := None; decode := None; pointer := None |}.

(** ** Properties *)

Lemma session_app g invs1 invs2 :
  session g (invs1 ++ invs2) =
  let '(g1, calls1) := session g invs1 in
  let '(g2, calls2) := session g1 invs2 in
  (g2, calls1 ++ calls2).
Proof.
  revert g. induction invs1 as [|i invs1 IH]; intros g; simpl.
  - destruct (session g invs2); reflexivity.
  - destruct (invoke g i) as [g' c]. rewrite IH.
    destruct (session g' invs1) as [g1 c1].
    destruct (session g1 invs2) as [g2 c2]. rewrite app_assoc. reflexivity.
Qed.

Lemma invoke_keeps_handle g i :
  gvPositionHandle (invoke g i).1 = gvPositionHandle g.
Proof. destruct i; reflexivity. Qed.

Lemma invoke_indices g i :
  Forall (fun c => forall index, attribute_index c = Some index ->
                                 index = gvPositionHandle g)
         (invoke g i).2.
Proof.
  destruct i; simpl.
  - repeat constructor; discriminate.
  - unfold callback_draw, triangle_num. simpl.
    repeat (apply Forall_cons; split;
            [simpl; intros index H; first [discriminate|congruence]|]).
    constructor.
  - repeat constructor; discriminate.
Qed.

(** X14: the attribute index.  No callback assigns [gvPositionHandle]: in
    any session it keeps the zero it starts with, and every
    [glVertexAttribPointer] and [glEnableVertexAttribArray] of the session
    is made with index 0. *)
Theorem position_handle_stays_zero invs :
  gvPositionHandle (session initial invs).1 = 0 /\
  Forall (fun c => forall index, attribute_index c = Some index -> index = 0)
         (session initial invs).2.
Proof.
  assert (H : forall g,
             gvPositionHandle (session g invs).1 = gvPositionHandle g /\
             Forall (fun c => forall index, attribute_index c = Some index ->
                                            index = gvPositionHandle g)
                    (session g invs).2).
  { induction invs as [|i invs IH]; intros g; simpl.
    - split; [reflexivity|constructor].
    - pose proof (invoke_keeps_handle g i) as Hk.
      pose proof (invoke_indices g i) as Hi.
      destruct (invoke g i) as [g' c]. simpl in Hk, Hi.
      destruct (IH g') as [IH1 IH2].
      destruct (session g' invs) as [g'' c']. simpl in *.
      split; [congruence|]. apply Forall_app. split; [exact Hi|].
      rewrite <- Hk. exact IH2. }
  exact (H initial).
Qed.

Lemma session_no_setup g invs :
  Forall (fun i => ~ is_setup i) invs -> (session g invs).1 = g.
Proof.
  revert g. induction invs as [|i invs IH]; intros g H; simpl.
  - reflexivity.
  - apply Forall_cons in H as [Hi H].
    destruct i; simpl in *; try (exfalso; apply Hi; exact I).
    + specialize (IH g H). destruct (session g invs). simpl in *. exact IH.
    + specialize (IH g H). destruct (session g invs). simpl in *. exact IH.
Qed.

Lemma session_snoc g invs i :
  session g (invs ++ [i]) =
  ((invoke (session g invs).1 i).1,
   (session g invs).2 ++ (invoke (session g invs).1 i).2).
Proof.
  rewrite session_app. destruct (session g invs) as [g1 c1]. simpl.
  destruct (invoke g1 i) as [g2 c2]. simpl. rewrite app_nil_r. reflexivity.
Qed.

(** After a set-up, and until the next one, the variables hold what that
    set-up was given and what the driver answered to it. *)
Lemma globals_after_setup before w h a between :
  Forall (fun i => ~ is_setup i) between ->
  let g := (session initial (before ++ Setup w h a :: between)).1 in
  width g = w /\ height g = h /\ vs g = new_vs a /\ fs g = new_fs a /\
  draw_program g = new_program a /\ g_textureId g = new_texture a.
Proof.
  intros Hno. rewrite session_app.
  destruct (session initial before) as [g0 c0].
  cbn [session invoke]. cbn [setupGraphics fst snd].
  set (g1 := {| gvPositionHandle := gvPositionHandle g0; width := w;
                height := h; vs := new_vs a; fs := new_fs a;
                draw_program := new_program a;
                g_textureId := new_texture a |}).
  pose proof (session_no_setup g1 between Hno) as Hg.
  destruct (session g1 between) as [g2 c2]. simpl in Hg. subst g2.
  simpl. auto 10.
Qed.

(** X15: the size checked is the size last set up.  A frame drawn after a
    [setupGraphics], with any draws and cleanups but no other set-up in
    between, ends by checking the framebuffer against the width and height
    given to that [setupGraphics], whatever came before it. *)
Theorem frame_checks_last_size before w h a between :
  Forall (fun i => ~ is_setup i) between ->
  exists calls,
    (session initial ((before ++ Setup w h a :: between) ++ [Draw])).2 =
    (session initial (before ++ Setup w h a :: between)).2 ++
    calls ++ [glStateDump_ARM; assert_fb w h].
Proof.
  intros Hno. rewrite session_snoc. cbn [invoke fst snd].
  destruct (globals_after_setup before w h a between Hno)
    as (Hw & Hh & _).
  unfold callback_draw. rewrite Hw, Hh.
  eexists. f_equal. rewrite !app_assoc. reflexivity.
Qed.

(** X16: what a cleanup deletes.  A cleanup after a [setupGraphics], with no
    other set-up in between, makes three calls: it deletes the two shaders
    and the program that this set-up created.  It deletes nothing that an
    earlier set-up created, and not the texture. *)
Theorem cleanup_deletes_last_setup before w h a between :
  Forall (fun i => ~ is_setup i) between ->
  (session initial ((before ++ Setup w h a :: between) ++ [Cleanup])).2 =
  (session initial (before ++ Setup w h a :: between)).2 ++
  [ glDeleteShader (new_vs a); glDeleteShader (new_fs a);
    glDeleteProgram (new_program a) ].
Proof.
  intros Hno. rewrite session_snoc. cbn [invoke fst snd].
  destruct (globals_after_setup before w h a between Hno)
    as (_ & _ & Hvs & Hfs & Hp & _).
  unfold test_cleanup. rewrite Hvs, Hfs, Hp. reflexivity.
Qed.

(** X17: the draws of a frame.  Whatever the variables hold, a frame makes
    eight draws, all with [draw_program] in use: rows 0 to 3 of
    [gTriangleVertices] with sRGB decoding skipped, then rows 0 to 3 of
    [gsRGBTriangleVertices] with decoding on.  Each draw fetches nine floats
    from a row that exists and has nine. *)
Theorem frame_draws g :
  draws no_state (callback_draw g) =
  map (fun i => {| with_program := Some (draw_program g);
                   with_decode := Some GL_SKIP_DECODE_EXT;
                   from_table := Some (gTriangleVertices, i);
                   floats_fetched := 9 |}) (seq 0 triangle_num) ++
  map (fun i => {| with_program := Some (draw_program g);
                   with_decode := Some GL_DECODE_EXT;
                   from_table := Some (gsRGBTriangleVertices, i);
                   floats_fetched := 9 |}) (seq 0 triangle_num) /\
  Forall (fun d =>
            exists table row floats,
              from_table d = Some (table, row) /\
              table_rows table !! row = Some floats /\
              floats_fetched d = Z.of_nat (length floats))
         (draws no_state (callback_draw g)).
Proof.
  split; [reflexivity|].
  repeat (apply Forall_cons; split;
          [eexists _, _, _; repeat split; reflexivity|]).
  constructor.
Qed.

(** A session: a set-up for which the driver hands out objects 1 to 4, a
    frame, then a second set-up with objects 5 to 8, a frame and a
    cleanup. *)
Lemma frame_checks_last_size_witness :
  Forall (fun i => ~ is_setup i) [Draw; Cleanup] /\
  exists calls,
    (session initial
       (([ Setup 640 480 {| new_program := 1; new_vs := 2; new_fs := 3;
                            new_texture := 4; s_texture_location := 0 |};
           Draw ] ++
         Setup 800 600 {| new_program := 5; new_vs := 6; new_fs := 7;
                          new_texture := 8; s_texture_location := 0 |} ::
         [Draw; Cleanup]) ++ [Draw])).2 =
    (session initial
       ([ Setup 640 480 {| new_program := 1; new_vs := 2; new_fs := 3;
                           new_texture := 4; s_texture_location := 0 |};
          Draw ] ++
        Setup 800 600 {| new_program := 5; new_vs := 6; new_fs := 7;
                         new_texture := 8; s_texture_location := 0 |} ::
        [Draw; Cleanup])).2 ++
    calls ++ [glStateDump_ARM; assert_fb 800 600].
Proof.
  assert (H : Forall (fun i => ~ is_setup i) [Draw; Cleanup]).
  { repeat (apply Forall_cons; split; [simpl; tauto|]). constructor. }
  split; [exact H|].
  exact (frame_checks_last_size _ 800 600 _ [Draw; Cleanup] H).
Defined.

Lemma cleanup_deletes_last_setup_witness :
  Forall (fun i => ~ is_setup i) [Draw] /\
  (session initial
     (([ Setup 640 480 {| new_program := 1; new_vs := 2; new_fs := 3;
                          new_texture := 4; s_texture_location := 0 |} ] ++
       Setup 800 600 {| new_program := 5; new_vs := 6; new_fs := 7;
                        new_texture := 8; s_texture_location := 0 |} ::
       [Draw]) ++ [Cleanup])).2 =
  (session initial
     ([ Setup 640 480 {| new_program := 1; new_vs := 2; new_fs := 3;
                         new_texture := 4; s_texture_location := 0 |} ] ++
      Setup 800 600 {| new_program := 5; new_vs := 6; new_fs := 7;
                       new_texture := 8; s_texture_location := 0 |} ::
      [Draw])).2 ++
  [glDeleteShader 6; glDeleteShader 7; glDeleteProgram 5].
Proof.
  assert (H : Forall (fun i => ~ is_setup i) [Draw]).
  { repeat (apply Forall_cons; split; [simpl; tauto|]). constructor. }
  split; [exact H|].
  exact (cleanup_deletes_last_setup
           [ Setup 640 480 {| new_program := 1; new_vs := 2; new_fs := 3;
                              new_texture := 4; s_texture_location := 0 |} ]
           800 600
           {| new_program := 5; new_vs := 6; new_fs := 7;
              new_texture := 8; s_texture_location := 0 |}
           [Draw] H).
Defined.

End SRGBDecode.
